(** * TallyTriN: pipelines and simulation dispatcher

    A shallow embedding of the parts of the repository that the
    specification talks about.

    From the sources:
    - [General]     the error-rate grid of the simulation dispatcher
                    (src/sequencing/reads/simulate/dispatcher/batch/General.py);
    - [Shell]       the commands [cat], [sort] and [uniq] of the pipeline
                    statements;
    - [SingleCell]  [merge_whitelist] and the task graph of
                    tallytrin/pipeline_singlecell.py;
    - [TenX]        [merge_whitelist] and the task graph of
                    tallytrin/pipeline_10x.py;
    - [Ruffus]      the order in which the jobs of a pipeline may run;
    - [Featurecounts] [merge_featurecounts_data] of
                    tallynnn/pipeline_illumina.py.

    The pipelines hand the work on reads to scripts (python/*.py) that
    are not part of the sources at hand.  What the specification says of
    them is modelled in
    - [Trimer]      majority vote over base triplets;
    - [Corrector]   correction of a barcode against the whitelist;
    - [Greedy]      greedy collapse of the UMIs of a MoleculeGroup;
    - [Matrix]      aggregation of count entries;
    - [Pipeline]    per-record errors and their counters.
*)

From Stdlib Require Import Floats.PrimFloat Ascii.
From stdpp Require Import gmap strings list sorting pretty.

#[local] Set Warnings "-inexact-float".

(* ===================================================================== *)
(** ** The simulation dispatcher: [general.errors]                        *)
(* ===================================================================== *)

Module General.

Local Open Scope float_scope.

(** One run of the body of [while e < 3e-1: ...].  The two Python lists
    are appended to in lock step, so the state of the loop is the
    current [e] and both lists.  Python floats are IEEE 754 binary64,
    which is what [float] is. *)
Definition errors_body (e : float) (pcr_errs seq_errs : list float)
  : float * list float * list float :=
  let pcr_errs := pcr_errs ++ [e] in
  let seq_errs := seq_errs ++ [e] in
  if 5 * e <? 3e-1 then
    (10 * e,
     pcr_errs ++ [2.5 * e] ++ [5 * e] ++ [7.5 * e],
     seq_errs ++ [2.5 * e] ++ [5 * e] ++ [7.5 * e])
  else (10 * e, pcr_errs, seq_errs).

(** The [while] loop, with fuel: [None] means the fuel ran out before
    the guard [e < 3e-1] became false. *)
Fixpoint errors_while (fuel : nat) (e : float) (pcr_errs seq_errs : list float)
  : option (list float * list float) :=
  if e <? 3e-1 then
    match fuel with
    | O => None
    | S fuel' =>
        let '(e', pcr_errs', seq_errs') := errors_body e pcr_errs seq_errs in
        errors_while fuel' e' pcr_errs' seq_errs'
    end
  else Some (pcr_errs, seq_errs).

(** [errors(self)]: the loop from [e = 1e-5], then [0.2] and [0.3] are
    appended to both lists. *)
Definition errors_fuel (fuel : nat) : option (list float * list float) :=
  match errors_while fuel 1e-5 [] [] with
  | Some (pcr_errs, seq_errs) =>
      Some (pcr_errs ++ [0.2] ++ [0.3], seq_errs ++ [0.2] ++ [0.3])
  | None => None
  end.

Definition errors : option (list float * list float) := errors_fuel 8.

(** Strictly increasing, as a run-time check over adjacent elements. *)
Fixpoint increasing (l : list float) : bool :=
  match l with
  | x :: (y :: _) as tl => (x <? y) && increasing tl
  | _ => true
  end.

Definition in_range (x : float) : bool := (1e-5 <=? x) && (x <=? 0.3).

End General.

(* ===================================================================== *)
(** ** Shell commands used in the pipeline statements                     *)
(* ===================================================================== *)

(** A text file is the list of its lines.  The statements of the
    pipelines pipe such files through [cat], [sort] and [uniq]. *)
Module Shell.

(** [cat f1 f2 ...]: the files one after the other. *)
Definition cat (files : list (list string)) : list string := concat files.

(** The order of [sort]: lines compared byte by byte, a proper prefix
    first (the C locale). *)
Definition line_le (a b : string) : Prop := String.leb a b = true.

#[global] Instance line_le_dec (a b : string) : Decision (line_le a b).
Proof. unfold line_le. apply _. Defined.

(** [sort]: the lines in order.  Equal lines are identical, so every
    sorting algorithm writes the same output; a merge sort is used. *)
Definition sort (lines : list string) : list string := merge_sort line_le lines.

(** [uniq]: of each run of adjacent identical lines the first is kept. *)
Fixpoint uniq (lines : list string) : list string :=
  match lines with
  | [] => []
  | x :: tl =>
      match tl with
      | [] => [x]
      | y :: _ => if String.eqb x y then uniq tl else x :: uniq tl
      end
  end.

End Shell.

(* ===================================================================== *)
(** ** pipeline_singlecell.py and pipeline_10x.py: [merge_whitelist]      *)
(* ===================================================================== *)

(** In both pipelines [merge_whitelist] turns the name of every chunk
    (["x.fastq.gz"]) into the name of its whitelist file
    (["x.whitelist.txt"]) and runs one shell statement over these files.
    The argument [whitelists] below is the content of these files, in the
    order of [infiles]. *)
Module SingleCell.

(** [cat %(whitelist_files)s | sort | uniq > %(outfile)s] *)
Definition merge_whitelist (whitelists : list (list string)) : list string :=
  Shell.uniq (Shell.sort (Shell.cat whitelists)).

(** The tasks of pipeline_singlecell.py, as decorated. *)
Module Task.

Inductive t : Set :=
| split_fastq | correct_polyA | identify_bcumi | merge_whitelist
| correct_reads | merge_correct_reads | mapping | run_samtools | add_xt_tag
| count | convert_tomtx | merge_uncorrect_reads | mapping_trimer
| collapse_reads | merge_singlenuc_reads | mapping_collapsed
| run_samtools_collapsed | add_xt_tag_collapsed | count_collapsed
| convert_tomtx_collapsed | count_collapsed_direction
| convert_tomtx_directional | merge_trimer_bcumi | run_minimap2_trimer
| run_samtools_trimer | add_xt_tag_trimer | run_greedy | full.

#[global] Instance eq_dec : EqDecision t.
Proof. solve_decision. Defined.

(** The tasks named in the decorators of a task: the task whose output
    a [@transform] or [@merge] takes, and every [@follows(task)]. *)
Definition upstream (x : t) : list t :=
  match x with
  | split_fastq => []
  | correct_polyA => [split_fastq]
  | identify_bcumi => [correct_polyA]
  | merge_whitelist => [identify_bcumi]
  | correct_reads => [identify_bcumi]
  | merge_correct_reads => [correct_reads]
  | mapping => [merge_correct_reads]
  | run_samtools => [mapping]
  | add_xt_tag => [run_samtools]
  | count => [add_xt_tag]
  | convert_tomtx => [count]
  | merge_uncorrect_reads => [identify_bcumi]
  | mapping_trimer => [merge_uncorrect_reads]
  | collapse_reads => [identify_bcumi]
  | merge_singlenuc_reads => [collapse_reads]
  | mapping_collapsed => [merge_singlenuc_reads]
  | run_samtools_collapsed => [mapping_collapsed]
  | add_xt_tag_collapsed => [run_samtools_collapsed]
  | count_collapsed => [add_xt_tag_collapsed]
  | convert_tomtx_collapsed => [count_collapsed]
  | count_collapsed_direction => [add_xt_tag_collapsed]
  | convert_tomtx_directional => [count_collapsed_direction]
  | merge_trimer_bcumi => [correct_reads]
  | run_minimap2_trimer => [merge_trimer_bcumi]
  | run_samtools_trimer => [run_minimap2_trimer]
  | add_xt_tag_trimer => [run_samtools_trimer]
  | run_greedy => [add_xt_tag_trimer]
  | full => [convert_tomtx_directional; convert_tomtx_collapsed;
             convert_tomtx; run_greedy]
  end.

(** A [@transform] over the chunk files has one job per chunk; a
    [@split], a [@merge] and a [@transform] of a single merged file have
    one job. *)
Definition per_chunk (x : t) : bool :=
  match x with
  | correct_polyA | identify_bcumi | correct_reads | collapse_reads => true
  | _ => false
  end.

(** Whether the shell statement of the task reads the merged
    ["whitelist.txt"].  No statement of this pipeline names it as an
    input; [correct_reads] runs
    [correct_barcode_nano.py --infile=... --outfile=...]. *)
Definition reads_merged_whitelist (x : t) : bool := false.

End Task.

End SingleCell.

Module TenX.

(** [cat %(whitelist_files)s  > %(outfile)s] *)
Definition merge_whitelist (whitelists : list (list string)) : list string :=
  Shell.cat whitelists.

(** The tasks of pipeline_10x.py, as decorated. *)
Module Task.

Inductive t : Set :=
| split_fastq | correct_polyA | identify_bcumi | merge_whitelist
| correct_reads | merge_correct_reads | mapping | run_samtools | add_xt_tag
| count | convert_tomtx | full.

#[global] Instance eq_dec : EqDecision t.
Proof. solve_decision. Defined.

Definition upstream (x : t) : list t :=
  match x with
  | split_fastq => []
  | correct_polyA => [split_fastq]
  | identify_bcumi => [correct_polyA]
  | merge_whitelist => [identify_bcumi]
  | correct_reads => [merge_whitelist; identify_bcumi]
  | merge_correct_reads => [correct_reads]
  | mapping => [merge_correct_reads]
  | run_samtools => [mapping]
  | add_xt_tag => [run_samtools]
  | count => [add_xt_tag]
  | convert_tomtx => [count]
  | full => [convert_tomtx]
  end.

Definition per_chunk (x : t) : bool :=
  match x with
  | correct_polyA | identify_bcumi | correct_reads => true
  | _ => false
  end.

(** [correct_reads] runs
    [correct_10xbarcode.py ... --whitelist=whitelist.txt ...]. *)
Definition reads_merged_whitelist (x : t) : bool :=
  match x with
  | correct_reads => true
  | _ => false
  end.

End Task.

End TenX.

(* ===================================================================== *)
(** ** Running a ruffus pipeline                                          *)
(* ===================================================================== *)

(** Ruffus runs a pipeline task by task: the jobs of a task are started
    only when every upstream task is complete, that is when all its jobs
    have finished.  Beyond that the order is free. *)
Module Ruffus.

Section Run.

Context {task : Type} `{EqDecision task}.
Variable upstream : task → list task.
Variable per_chunk : task → bool.
Variable chunks : nat.

(** A job: a task and the number of the chunk it works on. *)
Definition job : Type := task * nat.

Definition jobs_of (x : task) : list job :=
  if per_chunk x then map (pair x) (seq 0 chunks) else [(x, 0)].

Definition complete (finished : list job) (x : task) : Prop :=
  Forall (λ j, j ∈ finished) (jobs_of x).

Definition enabled (finished : list job) (j : job) : Prop :=
  j ∈ jobs_of (j.1) ∧ (j ∉ finished) ∧ Forall (complete finished) (upstream (j.1)).

(** The jobs finished so far, the latest first. *)
Inductive run : list job → Prop :=
| run_start : run []
| run_job (finished : list job) (j : job) :
    run finished → enabled finished j → run (j :: finished).

#[global] Instance complete_dec finished x : Decision (complete finished x).
Proof. unfold complete. apply _. Defined.

#[global] Instance enabled_dec finished j : Decision (enabled finished j).
Proof. unfold enabled. apply _. Defined.

(** A schedule given in the order of execution. *)
Fixpoint valid_from (finished : list job) (schedule : list job) : bool :=
  match schedule with
  | [] => true
  | j :: rest => bool_decide (enabled finished j) && valid_from (j :: finished) rest
  end.

End Run.

End Ruffus.

(** One run of [make full] of the single-cell pipeline on two chunks, in
    the order of execution. *)
Definition single_cell_schedule : list (Ruffus.job (task := SingleCell.Task.t)) :=
  [ (SingleCell.Task.split_fastq, 0);
    (SingleCell.Task.correct_polyA, 0); (SingleCell.Task.correct_polyA, 1);
    (SingleCell.Task.identify_bcumi, 1); (SingleCell.Task.identify_bcumi, 0);
    (SingleCell.Task.correct_reads, 0); (SingleCell.Task.correct_reads, 1);
    (SingleCell.Task.collapse_reads, 0); (SingleCell.Task.collapse_reads, 1);
    (SingleCell.Task.merge_correct_reads, 0);
    (SingleCell.Task.mapping, 0);
    (SingleCell.Task.run_samtools, 0);
    (SingleCell.Task.add_xt_tag, 0);
    (SingleCell.Task.count, 0);
    (SingleCell.Task.convert_tomtx, 0);
    (SingleCell.Task.merge_singlenuc_reads, 0);
    (SingleCell.Task.mapping_collapsed, 0);
    (SingleCell.Task.run_samtools_collapsed, 0);
    (SingleCell.Task.add_xt_tag_collapsed, 0);
    (SingleCell.Task.count_collapsed, 0);
    (SingleCell.Task.convert_tomtx_collapsed, 0);
    (SingleCell.Task.count_collapsed_direction, 0);
    (SingleCell.Task.convert_tomtx_directional, 0);
    (SingleCell.Task.merge_trimer_bcumi, 0);
    (SingleCell.Task.run_minimap2_trimer, 0);
    (SingleCell.Task.run_samtools_trimer, 0);
    (SingleCell.Task.add_xt_tag_trimer, 0);
    (SingleCell.Task.run_greedy, 0);
    (SingleCell.Task.full, 0) ].

(** Number of lines of [file] equal to [b]. *)
Definition occurrences (b : string) (file : list string) : nat :=
  length (filter (λ x, x = b) file).

(** One run of [make full] of the 10x pipeline on two chunks, in the
    order of execution. *)
Definition tenx_schedule : list (Ruffus.job (task := TenX.Task.t)) :=
  [ (TenX.Task.split_fastq, 0);
    (TenX.Task.correct_polyA, 1); (TenX.Task.correct_polyA, 0);
    (TenX.Task.identify_bcumi, 0); (TenX.Task.identify_bcumi, 1);
    (TenX.Task.merge_whitelist, 0);
    (TenX.Task.correct_reads, 1); (TenX.Task.correct_reads, 0);
    (TenX.Task.merge_correct_reads, 0);
    (TenX.Task.mapping, 0);
    (TenX.Task.run_samtools, 0);
    (TenX.Task.add_xt_tag, 0);
    (TenX.Task.count, 0);
    (TenX.Task.convert_tomtx, 0);
    (TenX.Task.full, 0) ].

(* ===================================================================== *)
(** ** Trimer decoding                                                    *)
(* ===================================================================== *)

Module Trimer.

(** Modelled from the spec: the majority vote of the Trimer Decoder (4.2).
    [correct_reads] of pipeline_singlecell.py ("Correct the barcodes using
    majority vote") runs python/correct_barcode_nano.py, which is not
    under src/.  The result is the emitted symbol with its confidence, or
    [None] when the three bases are all distinct. *)
Definition decode_triplet (a b c : ascii) : option (ascii * nat) :=
  if decide (a = b) then
    if decide (b = c) then Some (a, 3) else Some (a, 2)
  else if decide (a = c) then Some (a, 2)
  else if decide (b = c) then Some (b, 2)
  else None.

(** Modelled from the spec: the outcome of decoding a window (section 9:
    decoded / ambiguous / truncated); an ambiguous window names the
    position of the triplet without majority. *)
Inductive decoded : Type :=
| Decoded (symbols : list ascii) (confidence : list nat)
| Ambiguous (position : nat)
| Truncated.

(** Modelled from the spec: the triplets of a window are decoded from left
    to right, [position] being the number of the first one. *)
Fixpoint decode_triplets (position : nat) (bases : list ascii) : decoded :=
  match bases with
  | [] => Decoded [] []
  | a :: b :: c :: rest =>
      match decode_triplet a b c with
      | None => Ambiguous position
      | Some (x, k) =>
          match decode_triplets (S position) rest with
          | Decoded xs ks => Decoded (x :: xs) (k :: ks)
          | failure => failure
          end
      end
  | _ => Truncated
  end.

(** Modelled from the spec: the decoder reads the [3 * L] bases that
    follow the poly-A run; a read with fewer bases is truncated. *)
Definition decode_window (L : nat) (bases : list ascii) : decoded :=
  if decide (length bases < 3 * L) then Truncated
  else decode_triplets 0 (take (3 * L) bases).

(** The bases of a list of triplets, one after the other. *)
Definition flatten (triplets : list (ascii * ascii * ascii)) : list ascii :=
  flat_map (λ t, [t.1.1; t.1.2; t.2]) triplets.

(** A triplet that repeats [x] three times, but for at most one base. *)
Definition near_trimer (x : ascii) (t : ascii * ascii * ascii) : Prop :=
  (t.1.2 = x ∧ t.2 = x) ∨ (t.1.1 = x ∧ t.2 = x) ∨ (t.1.1 = x ∧ t.1.2 = x).

Definition all_distinct (t : ascii * ascii * ascii) : Prop :=
  t.1.1 ≠ t.1.2 ∧ t.1.1 ≠ t.2 ∧ t.1.2 ≠ t.2.

End Trimer.

(* ===================================================================== *)
(** ** Barcode correction                                                 *)
(* ===================================================================== *)

Module Corrector.

(** Modelled from the spec: the Hamming distance of the Barcode Corrector
    (4.4).  Barcodes have a fixed length; if the lengths differ, the
    positions one string lacks count as mismatches. *)
Fixpoint hamming (a b : string) : nat :=
  match a, b with
  | EmptyString, _ => String.length b
  | _, EmptyString => String.length a
  | String x a', String y b' =>
      (if decide (x = y) then 0 else 1) + hamming a' b'
  end.

(** Modelled from the spec: the outcomes of a correction; the two
    rejections are distinct. *)
Inductive correction : Type :=
| Corrected (barcode : string) (distance : nat)
| AmbiguousCorrection
| NoWhitelistMatch.

(** Smallest distance from [b] to an entry; [None] for an empty
    whitelist. *)
Definition min_distance (b : string) (whitelist : list string) : option nat :=
  match whitelist with
  | [] => None
  | w :: ws => Some (foldr (λ w' d, Nat.min (hamming b w') d) (hamming b w) ws)
  end.

(** The entries at distance [d] from [b]; the whitelist is a set. *)
Definition neighbours (b : string) (whitelist : list string) (d : nat)
  : list string :=
  filter (λ w, hamming b w = d) (remove_dups whitelist).

(** Modelled from the spec: the policy of the Barcode Corrector (4.4);
    python/correct_10xbarcode.py, which [correct_reads] of pipeline_10x.py
    runs, is not under src/.  An empty whitelist is a structural failure,
    fatal to the run ([None]). *)
Definition correct (threshold : nat) (whitelist : list string) (b : string)
  : option correction :=
  match min_distance b whitelist with
  | None => None
  | Some d =>
      Some (if decide (d = 0) then Corrected b 0
            else if decide (d ≤ threshold) then
              match neighbours b whitelist d with
              | [w] => Corrected w d
              | _ => AmbiguousCorrection
              end
            else NoWhitelistMatch)
  end.

End Corrector.

(* ===================================================================== *)
(** ** Greedy UMI collapse                                                *)
(* ===================================================================== *)

Module Greedy.

(** Modelled from the spec: the greedy collapse of the UMI Collapser
    (4.5).  [run_greedy] of pipeline_singlecell.py runs
    python/greedy_sc.py, which is not under src/.  A MoleculeGroup is
    given by the UMIs of its reads; a node of its graph is a distinct UMI
    with its read support. *)
Definition umi_table (reads : list string) : list (string * nat) :=
  map (λ u, (u, occurrences u reads)) (remove_dups reads).

(** Modelled from the spec: the order in which UMIs are selected: higher
    read support first, and on equal support the UMI that is first in
    byte order. *)
Definition precedes (x y : string * nat) : Prop :=
  y.2 < x.2 ∨ (x.2 = y.2 ∧ Shell.line_le (x.1) (y.1)).

#[global] Instance precedes_dec (x y : string * nat) : Decision (precedes x y).
Proof. unfold precedes. apply _. Defined.

Definition ranked (reads : list string) : list (string * nat) :=
  merge_sort precedes (umi_table reads).

(** One molecule: the selected UMI, the UMIs of the group (the selected
    one first) and the number of reads of the group. *)
Record molecule : Type := {
  representative : string;
  members : list string;
  read_support : nat
}.

Section Collapse.

Variable threshold : nat.

Definition near (u : string) (x : string * nat) : Prop :=
  Corrector.hamming u (x.1) ≤ threshold.

#[global] Instance near_dec (u : string) (x : string * nat) : Decision (near u x).
Proof. unfold near. apply _. Defined.

(** Modelled from the spec: "repeatedly select the UMI with the highest
    read support among uncollapsed nodes, absorb all neighbors within the
    distance threshold into it, and recurse on the remainder".  [nodes]
    is ranked, so its head is the UMI to select.  [None]: out of fuel. *)
Fixpoint greedy (fuel : nat) (nodes : list (string * nat))
  : option (list molecule) :=
  match nodes with
  | [] => Some []
  | (u, n) :: rest =>
      match fuel with
      | 0 => None
      | S fuel' =>
          let absorbed := filter (near u) rest in
          let remainder := filter (λ x, ¬ near u x) rest in
          match greedy fuel' remainder with
          | Some ms =>
              Some ({| representative := u;
                       members := u :: map fst absorbed;
                       read_support := n + sum_list (map snd absorbed) |} :: ms)
          | None => None
          end
      end
  end.

(** Every round removes a node, so the number of nodes is fuel enough. *)
Definition collapse (reads : list string) : option (list molecule) :=
  greedy (length (ranked reads)) (ranked reads).

(** Each resulting group is one molecule. *)
Definition molecule_count (reads : list string) : option nat :=
  match collapse reads with
  | Some ms => Some (length ms)
  | None => None
  end.

(** The rounds of [greedy], as a relation. *)
Inductive rounds : list (string * nat) → list molecule → Prop :=
| rounds_nil : rounds [] []
| rounds_cons (u : string) (n : nat) (rest : list (string * nat))
    (ms : list molecule) :
    rounds (filter (λ x, ¬ near u x) rest) ms →
    rounds ((u, n) :: rest)
      ({| representative := u;
          members := u :: map fst (filter (near u) rest);
          read_support := n + sum_list (map snd (filter (near u) rest)) |} :: ms).

(** Every representative is first, in the order [precedes], among the
    UMIs of its own group and of all later groups, and no UMI of a later
    group is within the threshold of it. *)
Inductive selection_order (support : string → nat) : list molecule → Prop :=
| selection_order_nil : selection_order support []
| selection_order_cons (m : molecule) (later : list molecule) :
    (∀ m' u, m' ∈ m :: later → u ∈ members m' →
       precedes (representative m, support (representative m)) (u, support u)) →
    (∀ m' u, m' ∈ later → u ∈ members m' →
       threshold < Corrector.hamming (representative m) u) →
    selection_order support later →
    selection_order support (m :: later).

End Collapse.

End Greedy.

(** The MoleculeGroup of the scenario of the spec: AAAA with support 5,
    AAAT with support 1, GGGG with support 3, the reads interleaved. *)
Definition scenario_reads : list string :=
  [ "GGGG"; "AAAA"; "AAAT"; "AAAA"; "GGGG"; "AAAA"; "AAAA"; "GGGG"; "AAAA" ]%string.

(* ===================================================================== *)
(** ** The count matrix                                                   *)
(* ===================================================================== *)

Module Matrix.

(** Modelled from the spec: a CountEntry (section 3). *)
Record CountEntry : Type := {
  cell_barcode : string;
  feature_id : string;
  count : nat
}.

Definition key (e : CountEntry) : string * string :=
  (cell_barcode e, feature_id e).

(** Modelled from the spec: the Matrix Builder (4.6), "summing duplicate
    (cell, feature) entries"; python/save_mtx.py, which [convert_tomtx]
    runs, is not under src/.  The sparse matrix maps the pairs that occur
    to their sum. *)
Definition add_entry (m : gmap (string * string) nat) (e : CountEntry)
  : gmap (string * string) nat :=
  <[key e := default 0 (m !! key e) + count e]> m.

(** A single serial accumulation. *)
Definition aggregate (entries : list CountEntry) : gmap (string * string) nat :=
  foldl add_entry ∅ entries.

(** The merge of two partial sums. *)
Definition merge_partial (m1 m2 : gmap (string * string) nat)
  : gmap (string * string) nat :=
  union_with (λ a b, Some (a + b)) m1 m2.

(** Partial sums, one per part, then merged. *)
Definition aggregate_parts (parts : list (list CountEntry))
  : gmap (string * string) nat :=
  foldr merge_partial ∅ (map aggregate parts).

(** The entries of one cell of the matrix, and their value. *)
Definition entries_of (k : string * string) (entries : list CountEntry)
  : list CountEntry :=
  filter (λ e, key e = k) entries.

Definition cell_value (entries : list CountEntry) : option nat :=
  match entries with
  | [] => None
  | _ => Some (sum_list (map count entries))
  end.

(** The sum of two cells, either of which may be absent. *)
Definition add_cells (a b : option nat) : option nat :=
  union_with (λ x y, Some (x + y)) a b.

End Matrix.

(** Three entries, two of them for the same cell and feature. *)
Definition scenario_entries : list Matrix.CountEntry :=
  [ {| Matrix.cell_barcode := "ACGT"; Matrix.feature_id := "g1";
       Matrix.count := 2 |};
    {| Matrix.cell_barcode := "ACGT"; Matrix.feature_id := "g2";
       Matrix.count := 1 |};
    {| Matrix.cell_barcode := "ACGT"; Matrix.feature_id := "g1";
       Matrix.count := 3 |} ]%string.

(* ===================================================================== *)
(** ** Per-record errors                                                  *)
(* ===================================================================== *)

Module Pipeline.

(** Modelled from the spec: the error kinds of section 7.  The scripts
    that raise and count them (python/*.py) are not under src/. *)
Inductive error_kind : Set :=
| UnanchoredRead | TruncatedWindow | AmbiguousTriplet
| NoWhitelistMatch | AmbiguousCorrection | MalformedFeatureTag.

#[global] Instance error_kind_eq_dec : EqDecision error_kind.
Proof. solve_decision. Defined.

(** The diagnostic counters, one per error kind. *)
Definition counters : Type := error_kind → nat.

Definition no_errors : counters := λ _, 0.

Definition tally (k : error_kind) (c : counters) : counters :=
  λ k', if decide (k' = k) then S (c k') else c k'.

(** Modelled from the spec: a stage handles its records one by one; a
    record with an error is dropped from the output and tallied, and the
    stage goes on with the next record. *)
Fixpoint run_stage {A B : Type} (handle : A → error_kind + B)
    (records : list A) : list B * counters :=
  match records with
  | [] => ([], no_errors)
  | r :: rest =>
      let '(out, c) := run_stage handle rest in
      match handle r with
      | inl k => (out, tally k c)
      | inr b => (b :: out, c)
      end
  end.

Definition total_errors (c : counters) : nat :=
  c UnanchoredRead + c TruncatedWindow + c AmbiguousTriplet
  + c NoWhitelistMatch + c AmbiguousCorrection + c MalformedFeatureTag.

Record DecodedTag : Type := {
  cell_barcode : list ascii;
  umi : list ascii;
  decode_confidence : list nat
}.

Record CorrectedRead : Type := {
  decoded : DecodedTag;
  corrected_barcode : string;
  distance : nat
}.

Section Stages.

(** The Orientation Normalizer and the feature tag of an alignment are
    the work of scripts and tools outside src/
    (complement_polyA_singlecell.py, xt_tag_nano.py): [find_anchor] gives
    the bases that follow the poly-A run of a read, if it has one, and
    [feature_tag] the feature of an alignment, if it has a usable one. *)
Context {read alignment : Type}.
Variable find_anchor : read → option (list ascii).
Variable feature_tag : alignment → option string.

Variable barcode_length umi_length : nat.
Variable threshold : nat.
Variable whitelist : list string.

Definition anchor (r : read) : error_kind + list ascii :=
  match find_anchor r with
  | None => inl UnanchoredRead
  | Some bases => inr bases
  end.

(** Modelled from the spec: decoding of the window of
    [3 * (barcode_length + umi_length)] bases (4.2). *)
Definition decode (bases : list ascii) : error_kind + DecodedTag :=
  match Trimer.decode_window (barcode_length + umi_length) bases with
  | Trimer.Truncated => inl TruncatedWindow
  | Trimer.Ambiguous _ => inl AmbiguousTriplet
  | Trimer.Decoded symbols confidence =>
      inr {| cell_barcode := take barcode_length symbols;
             umi := drop barcode_length symbols;
             decode_confidence := confidence |}
  end.

(** Modelled from the spec: correction of a decoded barcode (4.4).  The
    whitelist is checked to be non-empty before the stage runs, see
    [correct_stage]. *)
Definition correct_tag (tag : DecodedTag) : error_kind + CorrectedRead :=
  match Corrector.correct threshold whitelist
          (String.string_of_list_ascii (cell_barcode tag)) with
  | Some (Corrector.Corrected w d) =>
      inr {| decoded := tag; corrected_barcode := w; distance := d |}
  | Some Corrector.AmbiguousCorrection => inl AmbiguousCorrection
  | Some Corrector.NoWhitelistMatch | None => inl NoWhitelistMatch
  end.

Definition tag_feature (a : alignment) : error_kind + (alignment * string) :=
  match feature_tag a with
  | None => inl MalformedFeatureTag
  | Some f => inr (a, f)
  end.

(** A read goes through the three per-read stages; the first error
    ends its processing. *)
Definition process_read (r : read) : error_kind + CorrectedRead :=
  match anchor r with
  | inl k => inl k
  | inr bases =>
      match decode bases with
      | inl k => inl k
      | inr tag => correct_tag tag
      end
  end.

(** Modelled from the spec: an empty whitelist is fatal to the run
    ([None]); no record error is. *)
Definition process_chunk (reads : list read)
  : option (list CorrectedRead * counters) :=
  match whitelist with
  | [] => None
  | _ => Some (run_stage process_read reads)
  end.

End Stages.

End Pipeline.

(** A small configuration: reads that are their own anchored bases, a
    barcode of one symbol, no UMI, threshold 1 and the whitelist {A}. *)
Definition scenario_process_read
  : list ascii → Pipeline.error_kind + Pipeline.CorrectedRead :=
  Pipeline.process_read Some 1 0 1 ["A"%string].

(* ===================================================================== *)
(** ** pipeline_barcode.py and pipeline_illumina.py: the tasks            *)
(* ===================================================================== *)

Module Barcode.

(** The tasks of tallynnn/pipeline_barcode.py, as decorated. *)
Module Task.

Inductive t : Set :=
| split_fastq | correct_polyA | seperate_by_barcode | full.

#[global] Instance eq_dec : EqDecision t.
Proof. solve_decision. Defined.

(** [correct_polyA] is decorated [@follows(split_fastq)];
    [seperate_by_barcode] takes the glob ['polyA_correct.dir/*'] and
    follows a [mkdir] only. *)
Definition upstream (x : t) : list t :=
  match x with
  | split_fastq => []
  | correct_polyA => [split_fastq]
  | seperate_by_barcode => []
  | full => [seperate_by_barcode]
  end.

End Task.

End Barcode.

Module Illumina.

(** The tasks of tallynnn/pipeline_illumina.py, as decorated. *)
Module Task.

Inductive t : Set :=
| correct_umis | map_hisat2 | run_samtools | featurecounts | count_genes
| count_genes_noumis | merge_genes | merge_genes_noumi | merge_featurecounts
| full.

#[global] Instance eq_dec : EqDecision t.
Proof. solve_decision. Defined.

Definition upstream (x : t) : list t :=
  match x with
  | correct_umis => []
  | map_hisat2 => [correct_umis]
  | run_samtools => [map_hisat2]
  | featurecounts => [run_samtools]
  | count_genes => [featurecounts]
  | count_genes_noumis => [featurecounts]
  | merge_genes => [count_genes]
  | merge_genes_noumi => [count_genes_noumis]
  | merge_featurecounts => [featurecounts]
  | full => [merge_genes; merge_genes_noumi; merge_featurecounts]
  end.

(** The [@transform] tasks have one job per sample; the [@originate]
    tasks and [full] have one job. *)
Definition per_chunk (x : t) : bool :=
  match x with
  | correct_umis | map_hisat2 | run_samtools | featurecounts
  | count_genes | count_genes_noumis => true
  | _ => false
  end.

End Task.

End Illumina.

(* ===================================================================== *)
(** ** Dependencies between tasks                                         *)
(* ===================================================================== *)

Module Dependency.

Section Graph.

Context {task : Type} `{EqDecision task}.
Variable upstream : task → list task.

(** [depends_on x y]: [y] is upstream of [x], directly or through other
    tasks. *)
Inductive depends_on : task → task → Prop :=
| depends_direct (x y : task) : y ∈ upstream x → depends_on x y
| depends_through (x y z : task) :
    y ∈ upstream x → depends_on y z → depends_on x z.

(** The tasks reached from [x] in at most [depth] steps upstream. *)
Fixpoint ancestors (depth : nat) (x : task) : list task :=
  match depth with
  | 0 => []
  | S depth' => upstream x ++ flat_map (ancestors depth') (upstream x)
  end.

(** [order] lists every task after the tasks upstream of it, all of
    which it contains; [earlier] are the tasks listed before. *)
Fixpoint topological (earlier order : list task) : bool :=
  match order with
  | [] => true
  | x :: rest =>
      bool_decide (x ∉ earlier)
      && forallb (λ u, bool_decide (u ∈ earlier)) (upstream x)
      && topological (x :: earlier) rest
  end.

Variable per_chunk : task → bool.
Variable chunks : nat.

(** All jobs of the tasks of [order], task by task. *)
Definition schedule (order : list task) : list Ruffus.job :=
  flat_map (Ruffus.jobs_of per_chunk chunks) order.

End Graph.

End Dependency.

(** The tasks of pipeline_10x.py, in the order of the file. *)
Definition tenx_order : list TenX.Task.t :=
  [ TenX.Task.split_fastq; TenX.Task.correct_polyA; TenX.Task.identify_bcumi;
    TenX.Task.merge_whitelist; TenX.Task.correct_reads;
    TenX.Task.merge_correct_reads; TenX.Task.mapping; TenX.Task.run_samtools;
    TenX.Task.add_xt_tag; TenX.Task.count; TenX.Task.convert_tomtx;
    TenX.Task.full ].

(** The tasks of pipeline_singlecell.py that [full] depends on, in the
    order of the file. *)
Definition single_cell_order : list SingleCell.Task.t :=
  [ SingleCell.Task.split_fastq; SingleCell.Task.correct_polyA;
    SingleCell.Task.identify_bcumi; SingleCell.Task.correct_reads;
    SingleCell.Task.merge_correct_reads; SingleCell.Task.mapping;
    SingleCell.Task.run_samtools; SingleCell.Task.add_xt_tag;
    SingleCell.Task.count; SingleCell.Task.convert_tomtx;
    SingleCell.Task.collapse_reads; SingleCell.Task.merge_singlenuc_reads;
    SingleCell.Task.mapping_collapsed; SingleCell.Task.run_samtools_collapsed;
    SingleCell.Task.add_xt_tag_collapsed; SingleCell.Task.count_collapsed;
    SingleCell.Task.convert_tomtx_collapsed;
    SingleCell.Task.count_collapsed_direction;
    SingleCell.Task.convert_tomtx_directional;
    SingleCell.Task.merge_trimer_bcumi; SingleCell.Task.run_minimap2_trimer;
    SingleCell.Task.run_samtools_trimer; SingleCell.Task.add_xt_tag_trimer;
    SingleCell.Task.run_greedy; SingleCell.Task.full ].

(** The tasks of pipeline_illumina.py, in the order of the file. *)
Definition illumina_order : list Illumina.Task.t :=
  [ Illumina.Task.correct_umis; Illumina.Task.map_hisat2;
    Illumina.Task.run_samtools; Illumina.Task.featurecounts;
    Illumina.Task.count_genes; Illumina.Task.count_genes_noumis;
    Illumina.Task.merge_genes; Illumina.Task.merge_genes_noumi;
    Illumina.Task.merge_featurecounts; Illumina.Task.full ].

(* ===================================================================== *)
(** ** [split_fastq]: splitting the reads into chunks                     *)
(* ===================================================================== *)

Module Split.

(** [split -l n]: the input cut into pieces of [n] lines, the last one
    with the lines that remain.  [fuel] bounds the number of pieces. *)
Fixpoint pieces (fuel n : nat) (lines : list string) : list (list string) :=
  match fuel, lines with
  | _, [] => []
  | 0, _ :: _ => []
  | S fuel', _ :: _ => take n lines :: pieces fuel' n (drop n lines)
  end.

(** [split] refuses [-l 0] ("invalid number of lines"), which is [None];
    otherwise every piece takes at least one line, so the number of lines
    is fuel enough. *)
Definition split_l (n : nat) (lines : list string) : option (list (list string)) :=
  if decide (n = 0) then None else Some (pieces (length lines) n lines).

(** [split_fastq] of pipeline_singlecell.py and pipeline_10x.py:
    [zcat %(infile)s | split -l %(split)s - out.]; [reads] are the lines
    of the unpacked input, the result the chunk files [out.aa], [out.ab],
    ... in this order. *)
Definition split_fastq (split : nat) (reads : list string)
  : option (list (list string)) :=
  split_l split reads.

End Split.

(* ===================================================================== *)
(** ** File names                                                         *)
(* ===================================================================== *)

(** The string operations of Python that the pipelines use on file
    names. *)
Module Python.

(** [s.startswith(prefix)], on the characters. *)
Fixpoint startswith (s prefix : list ascii) : bool :=
  match prefix, s with
  | [], _ => true
  | _ :: _, [] => false
  | a :: prefix', b :: s' => bool_decide (a = b) && startswith s' prefix'
  end.

(** The scan of [s.replace(old, new)] for a non-empty [old], from left
    to right: where [old] starts, [new] is written and the characters of
    [old] are skipped ([skip] counts those still to skip); any other
    character is copied. *)
Fixpoint replace_from (old new : list ascii) (skip : nat) (s : list ascii)
  : list ascii :=
  match s with
  | [] => []
  | c :: s' =>
      match skip with
      | S skip' => replace_from old new skip' s'
      | 0 =>
          if startswith s old
          then new ++ replace_from old new (length old - 1) s'
          else c :: replace_from old new 0 s'
      end
  end.

(** With an empty [old], [new] is written before every character and at
    the end. *)
Definition replace_chars (old new s : list ascii) : list ascii :=
  match old with
  | [] => new ++ flat_map (λ c, c :: new) s
  | _ :: _ => replace_from old new 0 s
  end.

(** [s.replace(old, new)] *)
Definition replace (s old new : string) : string :=
  String.string_of_list_ascii
    (replace_chars (String.list_ascii_of_string old)
       (String.list_ascii_of_string new) (String.list_ascii_of_string s)).

(** [os.path.join(a, b)] (posixpath): an absolute [b] replaces [a]; a
    slash is put between the two unless [a] is empty or ends with one. *)
Definition path_join (a b : string) : string :=
  if startswith (String.list_ascii_of_string b) ["/"%char] then b
  else if bool_decide (a = EmptyString)
          || bool_decide (last (String.list_ascii_of_string a) = Some "/"%char)
       then String.append a b
       else String.append a (String.append "/" b).

(** [for c in s]: the characters of a string, each a string. *)
Definition chars (s : string) : list string :=
  map (λ c, String c EmptyString) (String.list_ascii_of_string s).

End Python.

Module Names.

Local Open Scope string_scope.

(** [SEQUENCEFILES = tuple([os.path.join(DATADIR, suffix_name)
      for suffix_name in SEQUENCESUFFIXES])], where [SEQUENCESUFFIXES] is
    the string [("*.fastq")] in parentheses, not a tuple: the loop goes
    over its characters. *)
Definition sequence_files (datadir suffixes : string) : list string :=
  map (Python.path_join datadir) (Python.chars suffixes).

(** The output file that ruffus gives [identify_bcumi] for a chunk
    ([r"polyA_umi.dir/\1.fastq.gz"]). *)
Definition bcumi_outfile (chunk : string) : string :=
  "polyA_umi.dir/" ++ chunk ++ ".fastq.gz".

(** [identify_bcumi] (both pipelines):
    [name = outfile.replace("polyA_umi.dir/", "")],
    [name = name.replace(".fastq.gz", "")], and the statement writes the
    whitelist of the chunk to [polyA_umi.dir/%(name)s.whitelist.txt]. *)
Definition identify_bcumi_name (outfile : string) : string :=
  Python.replace (Python.replace outfile "polyA_umi.dir/" "") ".fastq.gz" "".

Definition identify_bcumi_whitelist (outfile : string) : string :=
  "polyA_umi.dir/" ++ identify_bcumi_name outfile ++ ".whitelist.txt".

(** [merge_whitelist] (both pipelines): the whitelist files it reads,
    [i.replace(".fastq.gz", ".whitelist.txt")] for every input [i]. *)
Definition merge_whitelist_files (infiles : list string) : list string :=
  map (λ i, Python.replace i ".fastq.gz" ".whitelist.txt") infiles.

(** [correct_umis] of pipeline_illumina.py:
    [read2 = infile.replace(".fastq.1.gz", ".fastq.2.gz")]. *)
Definition correct_umis_read2 (infile : string) : string :=
  Python.replace infile ".fastq.1.gz" ".fastq.2.gz".

(** [split_fastq] of pipeline_barcode.py:
    [name = infile.replace('data.dir/','')],
    [name = name.replace('.fastq.gz','')]. *)
Definition barcode_split_name (infile : string) : string :=
  Python.replace (Python.replace infile "data.dir/" "") ".fastq.gz" "".

(** [seperate_by_barcode] of pipeline_barcode.py:
    [name = outfile.replace("seperate_samples.dir/", "")],
    [name = name.replace(".fastq.gz", "")]. *)
Definition seperate_by_barcode_name (outfile : string) : string :=
  Python.replace (Python.replace outfile "seperate_samples.dir/" "")
    ".fastq.gz" "".

(** [merge_featurecounts_data] of pipeline_illumina.py:
    [names = [x.replace("", "") for x in infiles]]. *)
Definition merge_featurecounts_names (infiles : list string) : list string :=
  map (λ x, Python.replace x "" "") infiles.

(** [merge_genes]:
    [names = [x.replace("_counts_genes.tsv.gz", "") for x in infiles]]. *)
Definition merge_genes_names (infiles : list string) : list string :=
  map (λ x, Python.replace x "_counts_genes.tsv.gz" "") infiles.

End Names.

(* ===================================================================== *)
(** ** The count table of the Illumina pipeline                           *)
(* ===================================================================== *)

Module Featurecounts.

(** A pandas [DataFrame] as [merge_featurecounts_data] uses it: the
    column labels, in order, and for every index label (a gene id) the
    cells of its row, one per column; [None] is a missing value ([NaN]).
    A row is found by its label: the index labels of a frame are taken to
    be distinct, as the gene ids of a count table are, and the order of
    the rows is not represented. *)
Record frame : Type := {
  columns : list string;
  rows : gmap string (list (option Z))
}.

(** [pd.DataFrame()] *)
Definition empty_frame : frame := {| columns := []; rows := ∅ |}.

(** [tmp_df] after [tmp_df = tmp_df.iloc[:,-1:]] and
    [tmp_df.columns = ["count"]]: the index of the file with its last
    column, labelled [count].  [counts] is what [pd.read_table(infile,
    ..., index_col=0, ...)] has in the last column for each index label. *)
Definition count_column (counts : gmap string Z) : frame :=
  {| columns := ["count"%string]; rows := (λ v, [Some v]) <$> counts |}.

(** [suffixes=("", "_drop")]: a column label that both frames have keeps
    its name on the left and gets [_drop] appended on the right. *)
Definition suffixed (left right : list string) : list string :=
  left ++ map (λ c, if decide (c ∈ left) then String.append c "_drop" else c)
            right.

(** [left.merge(right, how="outer", left_index=True, right_index=True,
    suffixes=("", "_drop"))]: a row for every index label of either
    frame, the cells of the left frame followed by those of the right;
    where a frame lacks the label its cells are missing. *)
Definition merge_outer (left right : frame) : frame :=
  {| columns := suffixed (columns left) (columns right);
     rows :=
       merge (λ l r,
                match l, r with
                | None, None => None
                | _, _ =>
                    Some (default (replicate (length (columns left)) None) l
                          ++ default (replicate (length (columns right)) None) r)
                end)
         (rows left) (rows right) |}.

(** [df.columns = names]; pandas raises [ValueError] when the number of
    names is not the number of columns ([None]). *)
Definition set_columns (names : list string) (df : frame) : option frame :=
  if decide (length names = length (columns df))
  then Some {| columns := names; rows := rows df |}
  else None.

Section Merge.

(** The files: [read_table infile] is the last column of [infile], by
    index label. *)
Variable read_table : string → gmap string Z.

(** [merge_featurecounts_data(infiles)] of pipeline_illumina.py. *)
Definition merge_featurecounts_data (infiles : list string) : option frame :=
  let final_df :=
    foldl (λ final_df infile,
             merge_outer final_df (count_column (read_table infile)))
      empty_frame infiles in
  let names := Names.merge_featurecounts_names infiles in
  set_columns names final_df.

End Merge.

(** The cells of the row of [gene], each with the label of its column. *)
Definition labelled_row (df : frame) (gene : string)
  : option (list (string * option Z)) :=
  zip (columns df) <$> rows df !! gene.

End Featurecounts.

(** Two count files: gene [g1] is counted in both, gene [g2] in the first
    only. *)
Definition scenario_read_table (infile : string) : gmap string Z :=
  if decide (infile = "s1_counts_genes.tsv.gz"%string)
  then {[ "g1"%string := 1%Z; "g2"%string := 4%Z ]}
  else if decide (infile = "s2_counts_genes.tsv.gz"%string)
  then {[ "g1"%string := 2%Z ]}
  else ∅.

(* ===================================================================== *)
(** ** The simulation dispatcher: working directories                     *)
(* ===================================================================== *)

Module Dispatch.

Local Open Scope string_scope.

(** [pcrNums], [pcrErrs], [seqErrs], [umiLens] and [amplRates] give the
    simulation of permutation [pn] the working directory
    [to('data/simu/umi_seq/<kind>/permute_') + str(pn) + '/'], which is
    also where its fastq files are written (['fastq_fp']).  [to] comes
    from the module [Path], which is not part of the sources; [str(pn)]
    is the decimal numeral of [pn]. *)
Definition working_dir (to : string → string) (kind : string) (pn : nat)
  : string :=
  to ("data/simu/umi_seq/" ++ kind ++ "/permute_") ++ pretty pn ++ "/".

End Dispatch.

(* ===================================================================== *)
(** * Theorems                                                            *)
(* ===================================================================== *)

(** C10. [errors()] returns two element-wise identical lists; the list is
    strictly increasing, starts with 1e-5, ends with 0.3, and all its
    elements lie in [1e-5, 0.3]. *)
Theorem errors_grid :
  exists l : list float,
    General.errors = Some (l, l) /\
    General.increasing l = true /\
    head l = Some 1e-5%float /\
    last l = Some 0.3%float /\
    forallb General.in_range l = true /\
    length l = 19.
Proof.
  eexists. split; [vm_compute; reflexivity|].
  repeat split; vm_compute; reflexivity.
Qed.

(* ===================================================================== *)
(** ** Whitelist merging                                                  *)
(* ===================================================================== *)

Section LineOrder.

Lemma ascii_compare_lt_trans (x y z : Ascii.ascii) :
  Ascii.compare x y = Lt → Ascii.compare y z = Lt → Ascii.compare x z = Lt.
Proof.
  unfold Ascii.compare. rewrite !N.compare_lt_iff. lia.
Qed.

Lemma line_le_trans (a b c : string) :
  Shell.line_le a b → Shell.line_le b c → Shell.line_le a c.
Proof.
  unfold Shell.line_le, String.leb.
  revert b c. induction a as [|x a IH]; intros [|y b] [|z c]; simpl; try done.
  destruct (Ascii.compare x y) eqn:Hxy; try done.
  - apply Ascii.compare_eq_iff in Hxy as ->.
    destruct (Ascii.compare y z); try done. apply IH.
  - destruct (Ascii.compare y z) eqn:Hyz; try done.
    + apply Ascii.compare_eq_iff in Hyz as <-. by rewrite Hxy.
    + by rewrite (ascii_compare_lt_trans _ _ _ Hxy Hyz).
Qed.

#[local] Instance line_le_transitive : Transitive Shell.line_le.
Proof. intros a b c. apply line_le_trans. Qed.

#[local] Instance line_le_total : Total Shell.line_le.
Proof. intros a b. apply String.leb_total. Qed.

#[local] Instance line_le_antisymm : AntiSymm (=) Shell.line_le.
Proof. intros a b. apply String.leb_antisym. Qed.

Lemma line_le_refl (a : string) : Shell.line_le a a.
Proof. by destruct (total Shell.line_le a a). Qed.

End LineOrder.

#[local] Existing Instances line_le_transitive line_le_total line_le_antisymm.

Lemma elem_of_concat {A} (x : A) (ls : list (list A)) :
  x ∈ concat ls ↔ ∃ l, l ∈ ls ∧ x ∈ l.
Proof.
  rewrite list_elem_of_In, in_concat.
  split; intros (l & H1 & H2); exists l.
  - by rewrite !list_elem_of_In.
  - by rewrite <- !list_elem_of_In.
Qed.

Lemma concat_perm {A} (ls ks : list (list A)) :
  ls ≡ₚ ks → concat ls ≡ₚ concat ks.
Proof.
  induction 1 as [|l ls ks _ IH|l k ls|ls ks ms _ IH1 _ IH2]; simpl.
  - done.
  - by rewrite IH.
  - rewrite !(assoc app). by rewrite (Permutation_app_comm k l).
  - by rewrite IH1.
Qed.

Lemma uniq_elem_of (x : string) (l : list string) :
  x ∈ Shell.uniq l ↔ x ∈ l.
Proof.
  induction l as [|a tl IH]; [done|].
  destruct tl as [|b tl']; [done|].
  change (Shell.uniq (a :: b :: tl'))
    with (if String.eqb a b then Shell.uniq (b :: tl') else a :: Shell.uniq (b :: tl')).
  destruct (String.eqb_spec a b) as [->|Hne].
  - rewrite IH, !elem_of_cons. tauto.
  - rewrite !elem_of_cons, IH, !elem_of_cons. tauto.
Qed.

Lemma uniq_sorted (l : list string) :
  StronglySorted Shell.line_le l → StronglySorted Shell.line_le (Shell.uniq l).
Proof.
  induction 1 as [|a tl Htl IH Ha]; [constructor|].
  destruct tl as [|b tl']; [by repeat constructor|].
  change (Shell.uniq (a :: b :: tl'))
    with (if String.eqb a b then Shell.uniq (b :: tl') else a :: Shell.uniq (b :: tl')).
  destruct (String.eqb a b); [done|].
  constructor; [done|].
  rewrite Forall_forall in *. intros y Hy. by apply Ha, uniq_elem_of.
Qed.

Lemma uniq_NoDup (l : list string) :
  StronglySorted Shell.line_le l → NoDup (Shell.uniq l).
Proof.
  induction 1 as [|a tl Htl IH Ha]; [constructor|].
  destruct tl as [|b tl']; [apply NoDup_singleton|].
  change (Shell.uniq (a :: b :: tl'))
    with (if String.eqb a b then Shell.uniq (b :: tl') else a :: Shell.uniq (b :: tl')).
  destruct (String.eqb_spec a b) as [->|Hne]; [done|].
  constructor; [|done].
  rewrite uniq_elem_of. intros Hin. apply Hne.
  apply (anti_symm Shell.line_le).
  - by apply Forall_cons_1 in Ha as [? _].
  - apply StronglySorted_inv in Htl as [_ Hb].
    apply elem_of_cons in Hin as [->|Hin]; [apply line_le_refl|].
    rewrite Forall_forall in Hb. by apply Hb.
Qed.

Lemma sort_strongly_sorted (l : list string) :
  StronglySorted Shell.line_le (Shell.sort l).
Proof. apply StronglySorted_merge_sort; apply _. Qed.

Lemma single_cell_merge_elem_of (b : string) (cs : list (list string)) :
  b ∈ SingleCell.merge_whitelist cs ↔ b ∈ concat cs.
Proof.
  unfold SingleCell.merge_whitelist, Shell.cat, Shell.sort.
  by rewrite uniq_elem_of, merge_sort_Permutation.
Qed.

Lemma single_cell_merge_sorted (cs : list (list string)) :
  StronglySorted Shell.line_le (SingleCell.merge_whitelist cs).
Proof. apply uniq_sorted, sort_strongly_sorted. Qed.

Lemma single_cell_merge_NoDup (cs : list (list string)) :
  NoDup (SingleCell.merge_whitelist cs).
Proof. apply uniq_NoDup, sort_strongly_sorted. Qed.

(** The merged file depends on the set of lines only. *)
Lemma single_cell_merge_ext (cs ds : list (list string)) :
  (∀ b, b ∈ concat cs ↔ b ∈ concat ds) →
  SingleCell.merge_whitelist cs = SingleCell.merge_whitelist ds.
Proof.
  intros Hset.
  apply (StronglySorted_unique Shell.line_le);
    [apply single_cell_merge_sorted..|].
  apply NoDup_Permutation; [apply single_cell_merge_NoDup..|].
  intros b. by rewrite !single_cell_merge_elem_of.
Qed.

Lemma concat_map_concat {A} (lss : list (list (list A))) :
  concat (map (@concat A) lss) = concat (concat lss).
Proof.
  induction lss as [|ls lss IH]; [done|].
  simpl. by rewrite concat_app, IH.
Qed.

Lemma occurrences_app (b : string) (l k : list string) :
  occurrences b (l ++ k) = occurrences b l + occurrences b k.
Proof. unfold occurrences. by rewrite filter_app, length_app. Qed.

Lemma occurrences_perm (b : string) (l k : list string) :
  l ≡ₚ k → occurrences b l = occurrences b k.
Proof. unfold occurrences. by intros ->. Qed.

Lemma occurrences_not_in (b : string) (l : list string) :
  b ∉ l → occurrences b l = 0.
Proof.
  unfold occurrences. induction l as [|x l IH]; [done|].
  rewrite not_elem_of_cons. intros [Hne Hl].
  rewrite filter_cons_False by congruence. by apply IH.
Qed.

Section WhitelistMerge.

Local Open Scope string_scope.

(** C3, as stated, fails on the 10x pipeline: its merged file for the
    chunks ["C"] and ["A"] is not sorted, and merging the same chunks in
    the other order writes a different file. *)
Lemma tenx_merge_whitelist_unsorted :
  TenX.merge_whitelist [["C"]; ["A"]] = ["C"; "A"] ∧
  ¬ Sorted Shell.line_le (TenX.merge_whitelist [["C"]; ["A"]]) ∧
  TenX.merge_whitelist [["A"]; ["C"]] ≠ TenX.merge_whitelist [["C"]; ["A"]].
Proof.
  split; [done|]. split; [|done].
  intros Hs. apply Sorted_inv in Hs as [_ Hhd].
  apply HdRel_inv in Hhd. by vm_compute in Hhd.
Qed.

(** C3 (amended).  The single-cell merge ([cat | sort | uniq]) is
    independent of the order of the chunks, can be done incrementally or
    in one go, and its output is sorted (byte order) without duplicates.
    The 10x merge (plain [cat]) keeps every line: merging in another
    order gives the same lines with the same multiplicities, in another
    order; incremental merging gives the same file as merging in one go. *)
Theorem merge_whitelist_order :
  (∀ cs ds : list (list string), cs ≡ₚ ds →
     SingleCell.merge_whitelist cs = SingleCell.merge_whitelist ds) ∧
  (∀ css : list (list (list string)),
     SingleCell.merge_whitelist (map SingleCell.merge_whitelist css)
     = SingleCell.merge_whitelist (concat css)) ∧
  (∀ cs : list (list string),
     StronglySorted Shell.line_le (SingleCell.merge_whitelist cs) ∧
     NoDup (SingleCell.merge_whitelist cs)) ∧
  (∀ cs ds : list (list string), cs ≡ₚ ds →
     TenX.merge_whitelist cs ≡ₚ TenX.merge_whitelist ds) ∧
  (∀ css : list (list (list string)),
     TenX.merge_whitelist (map TenX.merge_whitelist css)
     = TenX.merge_whitelist (concat css)).
Proof.
  repeat split.
  - intros cs ds Hp. apply single_cell_merge_ext.
    intros b. by rewrite (concat_perm _ _ Hp).
  - intros css. apply single_cell_merge_ext. intros b.
    rewrite !elem_of_concat. split.
    + intros (l & Hl & Hb). apply list_elem_of_fmap in Hl as (cs & -> & Hcs).
      apply single_cell_merge_elem_of, elem_of_concat in Hb as (c & Hc & Hb).
      exists c. split; [|done]. apply elem_of_concat. eauto.
    + intros (c & Hc & Hb). apply elem_of_concat in Hc as (cs & Hcs & Hc).
      exists (SingleCell.merge_whitelist cs). split.
      * apply list_elem_of_fmap. eauto.
      * apply single_cell_merge_elem_of, elem_of_concat. eauto.
  - apply single_cell_merge_sorted.
  - apply single_cell_merge_NoDup.
  - intros cs ds Hp. by apply concat_perm.
  - intros css. apply concat_map_concat.
Qed.

Lemma merge_whitelist_order_witness :
  [["C"]; ["A"; "C"]] ≡ₚ [["A"; "C"]; ["C"]] ∧
  SingleCell.merge_whitelist [["C"]; ["A"; "C"]]
  = SingleCell.merge_whitelist [["A"; "C"]; ["C"]].
Proof.
  split; [apply perm_swap|].
  apply (proj1 merge_whitelist_order). apply perm_swap.
Defined.

(** C4, as stated, fails on both pipelines.  The 10x merge keeps
    duplicates: a barcode found in two chunks is twice in the merged
    file.  The single-cell merge writes bare lines: the chunks
    ["ACGT"], ["ACGT"] and the single chunk ["ACGT"] give the same file,
    so no occurrence count (2 or 1) can be read off it. *)
Lemma merge_whitelist_no_counts :
  occurrences "ACGT" (TenX.merge_whitelist [["ACGT"]; ["ACGT"]]) = 2 ∧
  ¬ NoDup (TenX.merge_whitelist [["ACGT"]; ["ACGT"]]) ∧
  ¬ (∃ annotation : list string → string → nat,
       ∀ cs b, annotation (SingleCell.merge_whitelist cs) b
               = occurrences b (concat cs)).
Proof.
  split; [done|]. split.
  - intros Hnd. apply NoDup_cons_1_1 in Hnd. apply Hnd. by left.
  - intros (ann & Hann).
    pose proof (Hann [["ACGT"]; ["ACGT"]] "ACGT") as H2.
    pose proof (Hann [["ACGT"]] "ACGT") as H1.
    vm_compute in H1, H2. congruence.
Qed.

(** C4 (amended).  The single-cell merge writes every distinct line of
    the chunk-local whitelist files exactly once, with no occurrence
    count: the merged file is determined by the set of lines alone.  The
    10x merge concatenates without de-duplication: a line is in the merged
    file as often as in all chunk files together. *)
Theorem merge_whitelist_dedup :
  (∀ (cs : list (list string)) (b : string),
     b ∈ concat cs → occurrences b (SingleCell.merge_whitelist cs) = 1) ∧
  (∀ (cs : list (list string)) (b : string),
     b ∉ concat cs → occurrences b (SingleCell.merge_whitelist cs) = 0) ∧
  (∀ cs ds : list (list string),
     (∀ b, b ∈ concat cs ↔ b ∈ concat ds) →
     SingleCell.merge_whitelist cs = SingleCell.merge_whitelist ds) ∧
  (∀ (cs : list (list string)) (b : string),
     occurrences b (TenX.merge_whitelist cs)
     = sum_list (map (occurrences b) cs)).
Proof.
  repeat split.
  - intros cs b Hb. apply single_cell_merge_elem_of in Hb.
    pose proof (single_cell_merge_NoDup cs) as Hnd.
    apply elem_of_Permutation in Hb as (k & Hk).
    rewrite (occurrences_perm _ _ _ Hk). rewrite Hk in Hnd.
    apply NoDup_cons in Hnd as [Hnotin _].
    change (b :: k) with (app [b] k).
    rewrite occurrences_app, (occurrences_not_in _ _ Hnotin).
    unfold occurrences. by rewrite filter_cons_True.
  - intros cs b Hb. rewrite <- single_cell_merge_elem_of in Hb.
    by apply occurrences_not_in.
  - apply single_cell_merge_ext.
  - intros cs b. unfold TenX.merge_whitelist, Shell.cat.
    induction cs as [|c cs IH]; [done|].
    simpl. by rewrite occurrences_app, IH.
Qed.

Lemma merge_whitelist_dedup_witness :
  "ACGT" ∈ concat [["ACGT"; "TTTT"]; ["ACGT"]] ∧
  occurrences "ACGT" (SingleCell.merge_whitelist [["ACGT"; "TTTT"]; ["ACGT"]]) = 1.
Proof.
  assert (Hin : "ACGT" ∈ concat [["ACGT"; "TTTT"]; ["ACGT"]]) by (by left).
  split; [exact Hin|].
  exact (proj1 merge_whitelist_dedup _ _ Hin).
Defined.

End WhitelistMerge.

(* ===================================================================== *)
(** ** The whitelist barrier                                              *)
(* ===================================================================== *)

(** Settles a closed decidable proposition by evaluating its decision
    procedure. *)
Ltac by_computation := apply (bool_decide_unpack _); vm_compute; exact I.

Section RuffusFacts.

Context {task : Type} `{EqDecision task}.
Variable upstream : task → list task.
Variable per_chunk : task → bool.
Variable chunks : nat.

Abbreviation run := (Ruffus.run upstream per_chunk chunks).
Abbreviation complete := (Ruffus.complete per_chunk chunks).
Abbreviation enabled := (Ruffus.enabled upstream per_chunk chunks).
Abbreviation valid_from := (Ruffus.valid_from upstream per_chunk chunks).

Lemma run_suffix (later earlier : list (Ruffus.job (task := task))) :
  run (later ++ earlier) → run earlier.
Proof.
  induction later as [|j later IH]; [done|].
  simpl. inversion 1; subst. by apply IH.
Qed.

(** When a job started, all tasks upstream of its task were complete. *)
Lemma run_started_after (later earlier : list Ruffus.job) (j : Ruffus.job) :
  run (later ++ j :: earlier) → Forall (complete earlier) (upstream (j.1)).
Proof.
  intros Hrun. apply run_suffix in Hrun.
  inversion Hrun as [|? ? _ (_ & _ & Hup)]; subst. exact Hup.
Qed.

Lemma complete_per_chunk (finished : list Ruffus.job) (x : task) (c : nat) :
  per_chunk x = true → complete finished x → c < chunks → (x, c) ∈ finished.
Proof.
  unfold Ruffus.complete, Ruffus.jobs_of. intros -> Hall Hc.
  rewrite Forall_forall in Hall. apply Hall.
  apply list_elem_of_fmap. exists c. split; [done|].
  apply list_elem_of_In, in_seq. lia.
Qed.

Lemma complete_single (finished : list Ruffus.job) (x : task) :
  per_chunk x = false → complete finished x → (x, 0) ∈ finished.
Proof.
  unfold Ruffus.complete, Ruffus.jobs_of. intros -> Hall.
  by apply Forall_cons_1 in Hall as [? _].
Qed.

Lemma valid_from_run (finished schedule : list Ruffus.job) :
  run finished → valid_from finished schedule = true →
  run (rev schedule ++ finished).
Proof.
  revert finished. induction schedule as [|j rest IH]; intros finished Hrun; [done|].
  simpl. intros [Hj Hrest]%andb_prop.
  rewrite <- (assoc app). simpl. apply IH; [|done].
  constructor; [done|]. by apply bool_decide_eq_true in Hj.
Qed.

End RuffusFacts.

(** C5, as stated, fails on the single-cell pipeline: in the schedule
    [single_cell_schedule], a complete run of [full] on two chunks, both
    [correct_reads] jobs run and [merge_whitelist] never does. *)
Lemma single_cell_corrects_without_whitelist :
  Ruffus.run SingleCell.Task.upstream SingleCell.Task.per_chunk 2
    (rev single_cell_schedule) ∧
  (SingleCell.Task.full, 0) ∈ rev single_cell_schedule ∧
  (SingleCell.Task.correct_reads, 0) ∈ rev single_cell_schedule ∧
  (SingleCell.Task.correct_reads, 1) ∈ rev single_cell_schedule ∧
  (SingleCell.Task.merge_whitelist, 0) ∉ rev single_cell_schedule.
Proof.
  split.
  - rewrite <- (app_nil_r (rev single_cell_schedule)).
    apply valid_from_run; [constructor|]. by vm_compute.
  - repeat split; by_computation.
Qed.

(** C5 (amended).  In the 10x pipeline, when a [correct_reads] job
    starts, [merge_whitelist] has finished and so have the
    [identify_bcumi] jobs of all chunks; and when [merge_whitelist]
    started, the [identify_bcumi] jobs of all chunks had finished.
    [correct_reads] is the only 10x task whose statement reads the merged
    whitelist.  In the single-cell pipeline no statement reads the merged
    whitelist and [correct_reads] waits for [identify_bcumi] only. *)
Theorem tenx_whitelist_barrier
    (chunks i : nat) (later earlier : list Ruffus.job) :
  Ruffus.run TenX.Task.upstream TenX.Task.per_chunk chunks
    (later ++ (TenX.Task.correct_reads, i) :: earlier) →
  (TenX.Task.merge_whitelist, 0) ∈ earlier ∧
  (∀ c, c < chunks → (TenX.Task.identify_bcumi, c) ∈ earlier) ∧
  (∀ between before,
     earlier = between ++ (TenX.Task.merge_whitelist, 0) :: before →
     ∀ c, c < chunks → (TenX.Task.identify_bcumi, c) ∈ before) ∧
  (∀ x, TenX.Task.reads_merged_whitelist x = true ↔ x = TenX.Task.correct_reads) ∧
  (∀ x, SingleCell.Task.reads_merged_whitelist x = false) ∧
  SingleCell.Task.upstream SingleCell.Task.correct_reads
  = [SingleCell.Task.identify_bcumi].
Proof.
  intros Hrun.
  pose proof (run_started_after _ _ _ _ _ _ Hrun) as Hup. simpl in Hup.
  apply Forall_cons_1 in Hup as [Hmerge Hup].
  apply Forall_cons_1 in Hup as [Hident _].
  split; [eapply complete_single; [|exact Hmerge]; reflexivity|].
  split; [intros c Hc; eapply complete_per_chunk; [|exact Hident|exact Hc]; reflexivity|].
  split.
  - intros between before -> c Hc.
    apply run_suffix in Hrun.
    change ((?j :: ?l1) ++ ?l2) with (j :: (l1 ++ l2)) in Hrun.
    change (?j :: ?l) with ([j] ++ l) in Hrun.
    apply run_suffix in Hrun.
    apply run_started_after in Hrun. simpl in Hrun.
    apply Forall_cons_1 in Hrun as [Hid _].
    eapply complete_per_chunk; [|exact Hid|exact Hc]; reflexivity.
  - split; [|done]. intros x. split; [by destruct x|by intros ->].
Qed.

Lemma tenx_whitelist_barrier_witness :
  Ruffus.run TenX.Task.upstream TenX.Task.per_chunk 2
    ([] ++ (TenX.Task.correct_reads, 1) ::
       rev (take 6 tenx_schedule)) ∧
  (TenX.Task.merge_whitelist, 0) ∈ rev (take 6 tenx_schedule).
Proof.
  assert (Hrun : Ruffus.run TenX.Task.upstream TenX.Task.per_chunk 2
                   ([] ++ (TenX.Task.correct_reads, 1) ::
                      rev (take 6 tenx_schedule))).
  { change (Ruffus.run TenX.Task.upstream TenX.Task.per_chunk 2
              (rev (take 7 tenx_schedule) ++ [])).
    apply valid_from_run; [constructor|]. by vm_compute. }
  split; [exact Hrun|].
  exact (proj1 (tenx_whitelist_barrier 2 1 [] _ Hrun)).
Defined.

(* ===================================================================== *)
(** ** The trimer decoder                                                 *)
(* ===================================================================== *)

Lemma decode_triplet_near (x : ascii) (t : ascii * ascii * ascii) :
  Trimer.near_trimer x t →
  ∃ k, Trimer.decode_triplet t.1.1 t.1.2 t.2 = Some (x, k) ∧ (k = 2 ∨ k = 3).
Proof.
  destruct t as [[a b] c]. unfold Trimer.near_trimer, Trimer.decode_triplet.
  simpl. intros [[-> ->]|[[-> ->]|[-> ->]]];
    repeat case_decide; subst; eauto; congruence.
Qed.

Lemma decode_triplet_emits (a b c x : ascii) (k : nat) :
  Trimer.decode_triplet a b c = Some (x, k) →
  Trimer.near_trimer x (a, b, c) ∧ (k = 2 ∨ k = 3).
Proof.
  unfold Trimer.near_trimer, Trimer.decode_triplet. simpl.
  repeat case_decide; intros [= <- <-]; subst; auto.
Qed.

Lemma decode_triplet_distinct (a b c : ascii) :
  Trimer.decode_triplet a b c = None ↔ Trimer.all_distinct (a, b, c).
Proof.
  unfold Trimer.all_distinct, Trimer.decode_triplet. simpl.
  repeat case_decide; subst; split; try done; intros (? & ? & ?); done.
Qed.

Lemma length_flatten (ts : list (ascii * ascii * ascii)) :
  length (Trimer.flatten ts) = 3 * length ts.
Proof. induction ts as [|t ts IH]; simpl; [done|]. rewrite IH. lia. Qed.

Lemma decode_window_flatten (ts : list (ascii * ascii * ascii)) (rest : list ascii) :
  Trimer.decode_window (length ts) (Trimer.flatten ts ++ rest)
  = Trimer.decode_triplets 0 (Trimer.flatten ts).
Proof.
  unfold Trimer.decode_window.
  rewrite decide_False by (rewrite length_app, length_flatten; lia).
  by rewrite <- length_flatten, take_app_length.
Qed.

Lemma decode_triplets_near (position : nat) (xs : list ascii)
    (ts : list (ascii * ascii * ascii)) :
  Forall2 Trimer.near_trimer xs ts →
  ∃ ks, Trimer.decode_triplets position (Trimer.flatten ts) = Trimer.Decoded xs ks
        ∧ Forall (λ k, k = 2 ∨ k = 3) ks.
Proof.
  intros Hnear. revert position.
  induction Hnear as [|x t xs ts Hx _ IH]; intros position.
  - exists []. by split.
  - destruct (decode_triplet_near _ _ Hx) as (k & Hk & Hk23).
    destruct (IH (S position)) as (ks & Hks & Hks23).
    exists (k :: ks). split; [|by constructor].
    simpl. by rewrite Hk, Hks.
Qed.

Lemma decode_triplets_ambiguous (position p : nat)
    (ts : list (ascii * ascii * ascii)) (t : ascii * ascii * ascii) :
  ts !! p = Some t → Trimer.all_distinct t →
  ∃ q t', q ≤ p ∧ ts !! q = Some t' ∧ Trimer.all_distinct t' ∧
    Trimer.decode_triplets position (Trimer.flatten ts)
    = Trimer.Ambiguous (position + q).
Proof.
  revert position p. induction ts as [|[[a b] c] ts IH]; intros position p Hp Ht.
  - done.
  - simpl. destruct (Trimer.decode_triplet a b c) as [[x k]|] eqn:Hd.
    + destruct p as [|p].
      { simpl in Hp. injection Hp as <-.
        apply decode_triplet_distinct in Ht. congruence. }
      destruct (IH (S position) p Hp Ht) as (q & t' & Hq & Hlk & Hdist & ->).
      exists (S q), t'. split; [lia|]. split; [done|]. split; [done|].
      f_equal. lia.
    + exists 0, (a, b, c). rewrite Nat.add_0_r.
      apply decode_triplet_distinct in Hd.
      split; [lia|]. by split.
Qed.

Section TrimerExamples.

Local Open Scope char_scope.

(** C2.  A triplet of three equal bases decodes to that base with
    confidence 3; a triplet with exactly two equal bases decodes to the
    majority base with confidence 2; a triplet of three distinct bases has
    no decoding.  Every emitted base is the majority of its triplet.  A
    window in which every triplet has at most one mismatched base decodes
    to the encoded symbols; a window with a triplet of three distinct
    bases is reported ambiguous, at the position of such a triplet. *)
Theorem trimer_majority_vote :
  (∀ x : ascii, Trimer.decode_triplet x x x = Some (x, 3)) ∧
  (∀ x y : ascii, x ≠ y →
     Trimer.decode_triplet x x y = Some (x, 2) ∧
     Trimer.decode_triplet x y x = Some (x, 2) ∧
     Trimer.decode_triplet y x x = Some (x, 2)) ∧
  (∀ a b c : ascii, a ≠ b → a ≠ c → b ≠ c →
     Trimer.decode_triplet a b c = None) ∧
  (∀ (a b c x : ascii) (k : nat),
     Trimer.decode_triplet a b c = Some (x, k) →
     Trimer.near_trimer x (a, b, c) ∧ (k = 2 ∨ k = 3)) ∧
  (∀ (xs : list ascii) (ts : list (ascii * ascii * ascii)) (rest : list ascii),
     Forall2 Trimer.near_trimer xs ts →
     ∃ ks, Trimer.decode_window (length ts) (Trimer.flatten ts ++ rest)
           = Trimer.Decoded xs ks ∧ Forall (λ k, k = 2 ∨ k = 3) ks) ∧
  (∀ (ts : list (ascii * ascii * ascii)) (rest : list ascii) (p : nat)
     (t : ascii * ascii * ascii),
     ts !! p = Some t → Trimer.all_distinct t →
     ∃ q t', q ≤ p ∧ ts !! q = Some t' ∧ Trimer.all_distinct t' ∧
       Trimer.decode_window (length ts) (Trimer.flatten ts ++ rest)
       = Trimer.Ambiguous q).
Proof.
  split; [|split; [|split; [|split; [|split]]]].
  - intros x. unfold Trimer.decode_triplet. by rewrite !decide_True.
  - intros x y Hne. unfold Trimer.decode_triplet.
    repeat split; repeat case_decide; congruence.
  - intros a b c ? ? ?. by apply decode_triplet_distinct.
  - apply decode_triplet_emits.
  - intros xs ts rest Hnear. rewrite decode_window_flatten.
    by apply decode_triplets_near.
  - intros ts rest p t Hp Ht. rewrite decode_window_flatten.
    destruct (decode_triplets_ambiguous 0 p ts t Hp Ht)
      as (q & t' & ? & ? & ? & ?).
    by exists q, t'.
Qed.

Lemma trimer_majority_vote_witness :
  Forall2 Trimer.near_trimer ["A"; "C"; "G"]
    [("A", "A", "A"); ("C", "G", "C"); ("G", "G", "G")] ∧
  ("A" ≠ "C" ∧ "A" ≠ "G" ∧ "C" ≠ "G") ∧
  (∃ ks, Trimer.decode_window 3
           (Trimer.flatten [("A", "A", "A"); ("C", "G", "C"); ("G", "G", "G")] ++ [])
         = Trimer.Decoded ["A"; "C"; "G"] ks ∧ Forall (λ k, k = 2 ∨ k = 3) ks) ∧
  Trimer.decode_triplet "A" "C" "G" = None.
Proof.
  assert (Hnear : Forall2 Trimer.near_trimer ["A"; "C"; "G"]
            [("A", "A", "A"); ("C", "G", "C"); ("G", "G", "G")]).
  { repeat (constructor; [unfold Trimer.near_trimer; simpl; auto|]).
    constructor. }
  assert (Hne : "A" ≠ "C" ∧ "A" ≠ "G" ∧ "C" ≠ "G") by (repeat split; discriminate).
  split; [exact Hnear|]. split; [exact Hne|]. split.
  - exact (proj1 (proj2 (proj2 (proj2 (proj2 trimer_majority_vote)))) _ _ [] Hnear).
  - destruct Hne as (H1 & H2 & H3).
    exact (proj1 (proj2 (proj2 trimer_majority_vote)) _ _ _ H1 H2 H3).
Defined.

End TrimerExamples.

(* ===================================================================== *)
(** ** The barcode corrector                                              *)
(* ===================================================================== *)

Lemma hamming_0_iff (a b : string) : Corrector.hamming a b = 0 ↔ a = b.
Proof.
  revert b. induction a as [|x a IH]; intros [|y b]; simpl; try done.
  case_decide as Hxy.
  - subst. rewrite Nat.add_0_l, IH. split; congruence.
  - split; [lia|congruence].
Qed.

Lemma min_distance_spec (b : string) (W : list string) :
  W ≠ [] →
  ∃ d, Corrector.min_distance b W = Some d ∧
       (∀ w, w ∈ W → d ≤ Corrector.hamming b w) ∧
       (∃ w, w ∈ W ∧ Corrector.hamming b w = d).
Proof.
  destruct W as [|w0 ws]; [done|intros _].
  eexists. split; [reflexivity|].
  induction ws as [|w ws [IHle (w' & Hw' & IHeq)]]; simpl.
  - split.
    + intros w ->%list_elem_of_singleton. done.
    + exists w0. split; [by left|done].
  - split.
    + intros w1 Hw1.
      assert (w1 = w ∨ w1 ∈ w0 :: ws) as [->|Hin].
      { rewrite !elem_of_cons in Hw1. rewrite elem_of_cons. tauto. }
      * lia.
      * specialize (IHle _ Hin). lia.
    + destruct (Nat.min_spec (Corrector.hamming b w)
                  (foldr (λ w' d, Corrector.hamming b w' `min` d)
                     (Corrector.hamming b w0) ws)) as [[_ ->]|[_ ->]].
      * exists w. split; [|done]. right. by left.
      * exists w'. split; [|done].
        rewrite !elem_of_cons in Hw'. rewrite !elem_of_cons. tauto.
Qed.

Lemma elem_of_neighbours (b w : string) (W : list string) (d : nat) :
  w ∈ Corrector.neighbours b W d ↔ w ∈ W ∧ Corrector.hamming b w = d.
Proof.
  unfold Corrector.neighbours.
  rewrite list_elem_of_filter, elem_of_remove_dups. tauto.
Qed.

Lemma NoDup_neighbours (b : string) (W : list string) (d : nat) :
  NoDup (Corrector.neighbours b W d).
Proof. apply NoDup_filter, NoDup_remove_dups. Qed.

Lemma neighbours_unique (b w : string) (W : list string) (d : nat) :
  w ∈ W → Corrector.hamming b w = d →
  (∀ w', w' ∈ W → Corrector.hamming b w' = d → w' = w) →
  Corrector.neighbours b W d = [w].
Proof.
  intros Hin Hd Huniq.
  pose proof (NoDup_neighbours b W d) as Hnd.
  assert (Hall : ∀ w', w' ∈ Corrector.neighbours b W d → w' = w).
  { intros w' [? ?]%elem_of_neighbours. by apply Huniq. }
  assert (Hw : w ∈ Corrector.neighbours b W d) by by apply elem_of_neighbours.
  destruct (Corrector.neighbours b W d) as [|w1 [|w2 l]].
  - by apply elem_of_nil in Hw.
  - f_equal. apply Hall. by left.
  - exfalso. apply NoDup_cons_1_1 in Hnd. apply Hnd.
    rewrite (Hall w1) by (by left).
    rewrite <- (Hall w2) at 1 by (right; by left). by left.
Qed.

Lemma neighbours_tie (b w1 w2 : string) (W : list string) (d : nat) :
  w1 ∈ W → w2 ∈ W → w1 ≠ w2 →
  Corrector.hamming b w1 = d → Corrector.hamming b w2 = d →
  ∃ u v l, Corrector.neighbours b W d = u :: v :: l.
Proof.
  intros Hin1 Hin2 Hne Hd1 Hd2.
  assert (H1 : w1 ∈ Corrector.neighbours b W d) by by apply elem_of_neighbours.
  assert (H2 : w2 ∈ Corrector.neighbours b W d) by by apply elem_of_neighbours.
  destruct (Corrector.neighbours b W d) as [|u [|v l]].
  - by apply elem_of_nil in H1.
  - apply list_elem_of_singleton in H1, H2. congruence.
  - eauto.
Qed.

Section CorrectorPolicy.

Local Open Scope string_scope.

(** C1, as stated, fails in its second example: the observed barcode
    ["ACGG"] differs from ["ACGT"] and from ["ACGA"] in the last base
    only, so it is at distance 1 from both entries and the correction is
    ambiguous; it is not corrected to ["ACGT"]. *)
Lemma correct_ACGG_ambiguous :
  Corrector.hamming "ACGG" "ACGT" = 1 ∧
  Corrector.hamming "ACGG" "ACGA" = 1 ∧
  Corrector.correct 1 ["ACGT"; "ACGA"] "ACGG" = Some Corrector.AmbiguousCorrection ∧
  Corrector.correct 1 ["ACGT"; "ACGA"] "ACGG" ≠ Some (Corrector.Corrected "ACGT" 1).
Proof. by vm_compute. Qed.

(** C1 (amended).  For a non-empty whitelist [W], a threshold [t] and a
    barcode [b], with [d] the smallest distance from [b] to an entry of
    [W]: if [b] is in [W] it is returned unchanged with distance 0; if
    [0 < d <= t] and one entry only is at distance [d], that entry is
    returned; if two distinct entries are at distance [d <= t] the outcome
    is [AmbiguousCorrection]; if [d > t] the outcome is
    [NoWhitelistMatch], a different outcome.  For the whitelist
    {ACGT, ACGA} and threshold 1, ACGC and ACGG (each at distance 1 from
    both entries) are ambiguous, and ACTT (distance 1 from ACGT, 2 from
    ACGA) is corrected to ACGT. *)
Theorem correct_policy (t : nat) (W : list string) (b : string) :
  W ≠ [] →
  ∃ d,
    Corrector.min_distance b W = Some d ∧
    (∀ w, w ∈ W → (d ≤ Corrector.hamming b w)%nat) ∧
    (∃ w, w ∈ W ∧ Corrector.hamming b w = d) ∧
    (b ∈ W → Corrector.correct t W b = Some (Corrector.Corrected b 0)) ∧
    (∀ w, (0 < d ≤ t)%nat → w ∈ W → Corrector.hamming b w = d →
       (∀ w', w' ∈ W → Corrector.hamming b w' = d → w' = w) →
       Corrector.correct t W b = Some (Corrector.Corrected w d)) ∧
    (∀ w1 w2, (d ≤ t)%nat → w1 ∈ W → w2 ∈ W → w1 ≠ w2 →
       Corrector.hamming b w1 = d → Corrector.hamming b w2 = d →
       Corrector.correct t W b = Some Corrector.AmbiguousCorrection) ∧
    ((t < d)%nat → Corrector.correct t W b = Some Corrector.NoWhitelistMatch) ∧
    Corrector.AmbiguousCorrection ≠ Corrector.NoWhitelistMatch ∧
    Corrector.correct 1 ["ACGT"; "ACGA"] "ACGC" = Some Corrector.AmbiguousCorrection ∧
    Corrector.correct 1 ["ACGT"; "ACGA"] "ACGG" = Some Corrector.AmbiguousCorrection ∧
    Corrector.correct 1 ["ACGT"; "ACGA"] "ACTT" = Some (Corrector.Corrected "ACGT" 1).
Proof.
  intros Hne.
  destruct (min_distance_spec b W Hne) as (d & Hmin & Hle & Hex).
  exists d. split; [done|]. split; [done|]. split; [done|].
  unfold Corrector.correct. rewrite Hmin.
  split; [|split; [|split; [|split; [|split]]]].
  - intros Hb. specialize (Hle _ Hb).
    rewrite (proj2 (hamming_0_iff b b) eq_refl) in Hle.
    by rewrite decide_True by lia.
  - intros w [Hpos Hdt] Hw Hd Huniq.
    rewrite decide_False by lia. rewrite decide_True by done.
    by rewrite (neighbours_unique b w W d).
  - intros w1 w2 Hdt Hw1 Hw2 Hw12 Hd1 Hd2.
    rewrite decide_False.
    2:{ intros ->. apply hamming_0_iff in Hd1, Hd2. congruence. }
    rewrite decide_True by done.
    by destruct (neighbours_tie b w1 w2 W d) as (u & v & l & ->).
  - intros Hdt. by rewrite !decide_False by lia.
  - done.
  - by vm_compute.
Qed.

Lemma correct_policy_witness :
  ["ACGT"; "ACGA"] ≠ [] ∧
  ∃ d, Corrector.min_distance "ACTT" ["ACGT"; "ACGA"] = Some d ∧
       Corrector.correct 1 ["ACGT"; "ACGA"] "ACTT"
       = Some (Corrector.Corrected "ACGT" d).
Proof.
  assert (Hne : ["ACGT"; "ACGA"] ≠ []) by discriminate.
  split; [exact Hne|].
  destruct (correct_policy 1 ["ACGT"; "ACGA"] "ACTT" Hne)
    as (d & Hmin & _ & _ & _ & Huniq & _).
  exists d. split; [exact Hmin|].
  assert (Hd : d = 1) by (vm_compute in Hmin; congruence).
  apply Huniq.
  - lia.
  - by left.
  - by rewrite Hd.
  - intros w' Hw'. rewrite Hd.
    apply elem_of_cons in Hw' as [->|Hw']; [done|].
    apply list_elem_of_singleton in Hw' as ->. by vm_compute.
Defined.

End CorrectorPolicy.

(* ===================================================================== *)
(** ** The greedy collapse                                                *)
(* ===================================================================== *)

Section SelectionOrder.

#[local] Instance precedes_transitive : Transitive Greedy.precedes.
Proof.
  intros [u n] [v m] [w k]. unfold Greedy.precedes. simpl.
  intros [H1|[H1 L1]] [H2|[H2 L2]]; try (left; lia).
  right. split; [lia|]. by etrans.
Qed.

#[local] Instance precedes_total : Total Greedy.precedes.
Proof.
  intros [u n] [v m]. unfold Greedy.precedes. simpl.
  destruct (lt_eq_lt_dec n m) as [[Hlt|Heq]|Hgt].
  - right. left. lia.
  - destruct (total Shell.line_le u v); [left|right]; right; by split.
  - left. left. lia.
Qed.

#[local] Instance precedes_antisymm : AntiSymm (=) Greedy.precedes.
Proof.
  intros [u n] [v m]. unfold Greedy.precedes. simpl.
  intros [H1|[H1 L1]] [H2|[H2 L2]]; try lia.
  f_equal; [|done]. by apply (anti_symm Shell.line_le).
Qed.

Lemma precedes_refl (x : string * nat) : Greedy.precedes x x.
Proof. by destruct (total Greedy.precedes x x). Qed.

End SelectionOrder.

#[local] Existing Instances precedes_transitive precedes_total precedes_antisymm.

Lemma umi_table_perm (reads reads' : list string) :
  reads ≡ₚ reads' → Greedy.umi_table reads ≡ₚ Greedy.umi_table reads'.
Proof.
  intros Hp. unfold Greedy.umi_table.
  rewrite (map_ext (λ u, (u, occurrences u reads))
             (λ u, (u, occurrences u reads')))
    by (intros u; by rewrite (occurrences_perm _ _ _ Hp)).
  apply Permutation_map.
  apply NoDup_Permutation; [apply NoDup_remove_dups..|].
  intros u. by rewrite !elem_of_remove_dups, Hp.
Qed.

Lemma ranked_perm (reads reads' : list string) :
  reads ≡ₚ reads' → Greedy.ranked reads = Greedy.ranked reads'.
Proof.
  intros Hp. unfold Greedy.ranked.
  apply (Sorted_unique Greedy.precedes); [apply Sorted_merge_sort; apply _..|].
  by rewrite !merge_sort_Permutation, (umi_table_perm _ _ Hp).
Qed.

Lemma ranked_sorted (reads : list string) :
  StronglySorted Greedy.precedes (Greedy.ranked reads).
Proof. apply StronglySorted_merge_sort; apply _. Qed.

Lemma ranked_support (reads : list string) :
  Forall (λ x, x.2 = occurrences (x.1) reads) (Greedy.ranked reads).
Proof.
  unfold Greedy.ranked. rewrite merge_sort_Permutation.
  unfold Greedy.umi_table. apply Forall_forall.
  intros x (u & -> & _)%list_elem_of_fmap. done.
Qed.

Lemma ranked_umis (reads : list string) :
  map fst (Greedy.ranked reads) ≡ₚ remove_dups reads.
Proof.
  unfold Greedy.ranked. rewrite merge_sort_Permutation.
  unfold Greedy.umi_table. rewrite map_map. simpl. by rewrite map_id.
Qed.

Section GreedyRounds.

Variable threshold : nat.

Abbreviation greedy := (Greedy.greedy threshold).
Abbreviation rounds := (Greedy.rounds threshold).
Abbreviation near := (Greedy.near threshold).

Lemma greedy_enough_fuel (fuel : nat) (nodes : list (string * nat)) :
  length nodes ≤ fuel → is_Some (greedy fuel nodes).
Proof.
  revert nodes. induction fuel as [|fuel IH]; intros [|[u n] rest] Hlen;
    simpl in *; try done; try lia.
  destruct (IH (filter (λ x, ¬ near u x) rest)) as [ms Hms].
  { pose proof (length_filter (λ x, ¬ near u x) rest). lia. }
  rewrite Hms. done.
Qed.

Lemma greedy_rounds (fuel : nat) (nodes : list (string * nat))
    (ms : list Greedy.molecule) :
  greedy fuel nodes = Some ms → rounds nodes ms.
Proof.
  revert nodes ms. induction fuel as [|fuel IH]; intros [|[u n] rest] ms;
    simpl; try done.
  - intros [= <-]. constructor.
  - intros [= <-]. constructor.
  - destruct (greedy fuel (filter (λ x, ¬ near u x) rest)) as [ms'|] eqn:Hms';
      [|done].
    intros [= <-]. constructor. by apply IH.
Qed.

(** Every node ends up in exactly one group. *)
Lemma rounds_partition (nodes : list (string * nat)) (ms : list Greedy.molecule) :
  rounds nodes ms → concat (map Greedy.members ms) ≡ₚ map fst nodes.
Proof.
  induction 1 as [|u n rest ms _ IH]; [done|].
  simpl. constructor. rewrite IH, <- map_app.
  apply Permutation_map, filter_app_complement.
Qed.

Lemma rounds_within (nodes : list (string * nat)) (ms : list Greedy.molecule) :
  rounds nodes ms →
  Forall (λ m, Greedy.representative m ∈ Greedy.members m ∧
               ∀ u, u ∈ Greedy.members m →
                    Corrector.hamming (Greedy.representative m) u ≤ threshold) ms.
Proof.
  induction 1 as [|u n rest ms _ IH]; constructor; [|done].
  simpl. split; [by left|].
  intros v [->|Hv]%elem_of_cons.
  - rewrite (proj2 (hamming_0_iff u u) eq_refl). lia.
  - apply list_elem_of_fmap in Hv as (x & -> & Hx).
    by apply list_elem_of_filter in Hx as [Hnear _].
Qed.

Lemma filter_strongly_sorted {A} (R : relation A) (P : A → Prop)
    `{∀ x, Decision (P x)} (l : list A) :
  StronglySorted R l → StronglySorted R (filter P l).
Proof.
  induction 1 as [|x l _ IH Hx]; [constructor|].
  rewrite filter_cons. case_decide; [|done].
  constructor; [done|].
  rewrite Forall_forall in *. intros y [_ Hy]%list_elem_of_filter. by apply Hx.
Qed.

Lemma rounds_member_node (nodes : list (string * nat))
    (ms : list Greedy.molecule) (m : Greedy.molecule) (u : string) :
  rounds nodes ms → m ∈ ms → u ∈ Greedy.members m →
  ∃ x, x ∈ nodes ∧ x.1 = u.
Proof.
  intros Hr Hm Hu.
  assert (Hin : u ∈ concat (map Greedy.members ms)).
  { apply elem_of_concat. exists (Greedy.members m). split; [|done].
    apply list_elem_of_fmap. eauto. }
  rewrite (rounds_partition _ _ Hr) in Hin.
  apply list_elem_of_fmap in Hin as (x & -> & Hx). eauto.
Qed.

Lemma rounds_selection_order (support : string → nat)
    (nodes : list (string * nat)) (ms : list Greedy.molecule) :
  StronglySorted Greedy.precedes nodes →
  Forall (λ x, x.2 = support (x.1)) nodes →
  rounds nodes ms →
  Greedy.selection_order threshold support ms.
Proof.
  intros Hsorted Hsup Hr. induction Hr as [|u n rest ms Hr IH]; [constructor|].
  apply StronglySorted_inv in Hsorted as [Hrest Hhead].
  apply Forall_cons_1 in Hsup as [Hn Hsup]. simpl in Hn. subst n.
  rewrite Forall_forall in Hhead, Hsup.
  assert (Hlater : ∀ m' v, m' ∈ ms → v ∈ Greedy.members m' →
            ∃ x, x ∈ rest ∧ ¬ near u x ∧ x.1 = v).
  { intros m' v Hm' Hv.
    destruct (rounds_member_node _ _ _ _ Hr Hm' Hv) as (x & Hx & <-).
    apply list_elem_of_filter in Hx as [? ?]. eauto. }
  assert (Hfirst : ∀ x, x ∈ rest →
            Greedy.precedes (u, support u) (x.1, support (x.1))).
  { intros x Hx. rewrite <- (Hsup x Hx). destruct x. by apply Hhead. }
  constructor.
  - intros m' v [->|Hm']%elem_of_cons Hv.
    + simpl in Hv. apply elem_of_cons in Hv as [->|Hv]; [apply precedes_refl|].
      apply list_elem_of_fmap in Hv as (x & -> & Hx).
      apply list_elem_of_filter in Hx as [_ Hx]. by apply Hfirst.
    + destruct (Hlater _ _ Hm' Hv) as (x & Hx & _ & <-). by apply Hfirst.
  - intros m' v Hm' Hv. simpl.
    destruct (Hlater _ _ Hm' Hv) as (x & _ & Hfar & <-).
    unfold Greedy.near in Hfar. lia.
  - apply IH.
    + by apply filter_strongly_sorted.
    + apply Forall_forall. intros x [_ Hx]%list_elem_of_filter. by apply Hsup.
Qed.

End GreedyRounds.

Section GreedyCollapse.

Local Open Scope string_scope.

Lemma collapse_total (t : nat) (reads : list string) :
  is_Some (Greedy.collapse t reads).
Proof. unfold Greedy.collapse. by apply greedy_enough_fuel. Qed.

(** C6.  The greedy collapse of a MoleculeGroup does not depend on the
    order of its reads: two orderings of the same reads give the same
    groups, each with the same representative UMI, and so the same number
    of molecules; the collapse always returns a result.  Ties on equal
    support are broken by a fixed total order, the byte order of the
    UMIs. *)
Theorem greedy_collapse_deterministic (t : nat) (reads reads' : list string) :
  reads ≡ₚ reads' →
  Greedy.collapse t reads = Greedy.collapse t reads' ∧
  Greedy.molecule_count t reads = Greedy.molecule_count t reads' ∧
  is_Some (Greedy.collapse t reads) ∧
  (∀ x y, Greedy.precedes x y ∨ Greedy.precedes y x) ∧
  (∀ x y, Greedy.precedes x y → Greedy.precedes y x → x = y) ∧
  (∀ u v n, Greedy.precedes (u, n) (v, n) ↔ Shell.line_le u v).
Proof.
  intros Hp.
  assert (Heq : Greedy.collapse t reads = Greedy.collapse t reads').
  { unfold Greedy.collapse. by rewrite (ranked_perm _ _ Hp). }
  split; [done|]. split; [unfold Greedy.molecule_count; by rewrite Heq|].
  split; [apply collapse_total|].
  split; [apply (total Greedy.precedes)|].
  split; [apply (anti_symm Greedy.precedes)|].
  intros u v n. unfold Greedy.precedes. simpl. split.
  - intros [?|[_ ?]]; [lia|done].
  - intros ?. by right.
Qed.

Lemma greedy_collapse_deterministic_witness :
  scenario_reads ≡ₚ rev scenario_reads ∧
  Greedy.collapse 1 scenario_reads = Greedy.collapse 1 (rev scenario_reads).
Proof.
  assert (Hp : scenario_reads ≡ₚ rev scenario_reads) by apply Permutation_rev.
  split; [exact Hp|].
  exact (proj1 (greedy_collapse_deterministic 1 _ _ Hp)).
Defined.

(** C7.  The greedy collapse returns a list of groups, one molecule
    each, such that: every distinct UMI of the MoleculeGroup is in
    exactly one group; every group contains its representative and only
    UMIs within the threshold of it; every representative has the highest
    read support (ties: the first in byte order) among the UMIs that were
    not yet collapsed, that is those of its own and of all later groups;
    and all UMIs within the threshold of a representative are absorbed, so
    none is left for a later group.  The MoleculeGroup AAAA (support 5),
    AAAT (support 1), GGGG (support 3) with threshold 1 collapses to two
    molecules: AAAA, which absorbs AAAT, and GGGG. *)
Theorem greedy_collapse_groups (t : nat) (reads : list string) :
  ∃ ms : list Greedy.molecule,
    Greedy.collapse t reads = Some ms ∧
    Greedy.molecule_count t reads = Some (length ms) ∧
    Greedy.rounds t (Greedy.ranked reads) ms ∧
    concat (map Greedy.members ms) ≡ₚ remove_dups reads ∧
    Forall (λ m, Greedy.representative m ∈ Greedy.members m ∧
                 ∀ u, u ∈ Greedy.members m →
                      (Corrector.hamming (Greedy.representative m) u ≤ t)%nat) ms ∧
    Greedy.selection_order t (λ u, occurrences u reads) ms ∧
    Greedy.collapse 1 scenario_reads
    = Some [ {| Greedy.representative := "AAAA";
                Greedy.members := ["AAAA"; "AAAT"];
                Greedy.read_support := 6 |};
             {| Greedy.representative := "GGGG";
                Greedy.members := ["GGGG"];
                Greedy.read_support := 3 |} ] ∧
    Greedy.molecule_count 1 scenario_reads = Some 2 ∧
    Greedy.ranked scenario_reads = [("AAAA", 5); ("GGGG", 3); ("AAAT", 1)].
Proof.
  destruct (collapse_total t reads) as [ms Hms].
  exists ms. split; [done|].
  split; [unfold Greedy.molecule_count; by rewrite Hms|].
  pose proof (greedy_rounds _ _ _ _ Hms) as Hr.
  split; [done|].
  split; [by rewrite (rounds_partition _ _ _ Hr), ranked_umis|].
  split; [by apply (rounds_within _ _ _ Hr)|].
  split.
  { apply (rounds_selection_order t _ (Greedy.ranked reads));
      [apply ranked_sorted|apply ranked_support|done]. }
  split; [by vm_compute|]. split; by vm_compute.
Qed.

Lemma greedy_collapse_groups_witness :
  ∃ ms, Greedy.collapse 1 scenario_reads = Some ms ∧
        map Greedy.representative ms = ["AAAA"; "GGGG"] ∧
        concat (map Greedy.members ms) ≡ₚ remove_dups scenario_reads.
Proof.
  destruct (greedy_collapse_groups 1 scenario_reads)
    as (ms & Hms & _ & _ & Hpart & _ & _ & Hscenario & _).
  exists ms. split; [exact Hms|]. split; [|exact Hpart].
  rewrite Hms in Hscenario. by injection Hscenario as ->.
Defined.

End GreedyCollapse.

(* ===================================================================== *)
(** ** The matrix builder                                                 *)
(* ===================================================================== *)

Section MatrixSums.

Implicit Types (m : gmap (string * string) nat) (k : string * string).
Implicit Types (e : Matrix.CountEntry) (es : list Matrix.CountEntry).

Abbreviation add_cells := Matrix.add_cells.

Lemma lookup_accumulate m es k :
  foldl Matrix.add_entry m es !! k
  = add_cells (m !! k) (Matrix.cell_value (Matrix.entries_of k es)).
Proof.
  revert m. induction es as [|e es IH]; intros m.
  - simpl. by destruct (m !! k).
  - simpl. rewrite IH. unfold Matrix.entries_of, Matrix.add_entry.
    rewrite filter_cons. case_decide as Hk.
    + rewrite Hk, lookup_insert_eq.
      generalize (filter (λ e0, Matrix.key e0 = k) es). intros l.
      unfold Matrix.add_cells, Matrix.cell_value.
      destruct (m !! k), l; simpl; f_equal; lia.
    + by rewrite lookup_insert_ne.
Qed.

Lemma lookup_aggregate es k :
  Matrix.aggregate es !! k = Matrix.cell_value (Matrix.entries_of k es).
Proof.
  unfold Matrix.aggregate. rewrite lookup_accumulate, lookup_empty.
  by destruct (Matrix.cell_value _).
Qed.

Lemma cell_value_perm es es' :
  es ≡ₚ es' → Matrix.cell_value es = Matrix.cell_value es'.
Proof.
  intros Hp. destruct es as [|e es], es' as [|e' es']; try done.
  - by apply Permutation_nil_cons in Hp.
  - symmetry in Hp. by apply Permutation_nil_cons in Hp.
  - unfold Matrix.cell_value. f_equal.
    change (sum_list_with id (Matrix.count <$> (e :: es))
            = sum_list_with id (Matrix.count <$> (e' :: es'))).
    by rewrite Hp.
Qed.

Lemma cell_value_app es es' :
  Matrix.cell_value (es ++ es')
  = add_cells (Matrix.cell_value es) (Matrix.cell_value es').
Proof.
  unfold Matrix.add_cells.
  destruct es as [|e es]; [simpl; by destruct (Matrix.cell_value es')|].
  destruct es' as [|e' es']; [by rewrite app_nil_r|].
  change (Some (sum_list (map Matrix.count ((e :: es) ++ e' :: es')))
          = Some (sum_list (map Matrix.count (e :: es))
                  + sum_list (map Matrix.count (e' :: es')))).
  by rewrite map_app, sum_list_with_app.
Qed.

Lemma lookup_merge_partial m1 m2 k :
  Matrix.merge_partial m1 m2 !! k = add_cells (m1 !! k) (m2 !! k).
Proof. unfold Matrix.merge_partial. by rewrite lookup_union_with. Qed.

Lemma add_cells_comm (a b : option nat) : add_cells a b = add_cells b a.
Proof. unfold Matrix.add_cells. destruct a, b; simpl; try done. f_equal. lia. Qed.

Lemma add_cells_assoc (a b c : option nat) :
  add_cells a (add_cells b c) = add_cells (add_cells a b) c.
Proof. unfold Matrix.add_cells. destruct a, b, c; simpl; try done. f_equal. lia. Qed.

Lemma aggregate_app es es' :
  Matrix.aggregate (es ++ es')
  = Matrix.merge_partial (Matrix.aggregate es) (Matrix.aggregate es').
Proof.
  apply map_eq. intros k.
  rewrite lookup_merge_partial, !lookup_aggregate.
  unfold Matrix.entries_of. by rewrite filter_app, cell_value_app.
Qed.

(** The Matrix Builder as the specification describes it (its script,
    python/save_mtx.py, is not among the sources): aggregation of
    CountEntry values does not depend on their order; the merge of
    partial sums is commutative and associative; and partial sums over
    any split of the entries, merged, give the matrix of a single serial
    accumulation.  Each cell of the matrix holds the sum of the entries
    with its (cell_barcode, feature_id). *)
Lemma matrix_builder_sums :
  (∀ es es', es ≡ₚ es' → Matrix.aggregate es = Matrix.aggregate es') ∧
  (∀ m1 m2, Matrix.merge_partial m1 m2 = Matrix.merge_partial m2 m1) ∧
  (∀ m1 m2 m3,
     Matrix.merge_partial m1 (Matrix.merge_partial m2 m3)
     = Matrix.merge_partial (Matrix.merge_partial m1 m2) m3) ∧
  (∀ es es',
     Matrix.aggregate (es ++ es')
     = Matrix.merge_partial (Matrix.aggregate es) (Matrix.aggregate es')) ∧
  (∀ parts : list (list Matrix.CountEntry),
     Matrix.aggregate_parts parts = Matrix.aggregate (concat parts)) ∧
  (∀ es k,
     Matrix.aggregate es !! k = Matrix.cell_value (Matrix.entries_of k es)).
Proof.
  split; [|split; [|split; [|split; [|split]]]].
  - intros es es' Hp. apply map_eq. intros k.
    rewrite !lookup_aggregate. apply cell_value_perm.
    unfold Matrix.entries_of. by rewrite Hp.
  - intros m1 m2. apply map_eq. intros k.
    rewrite !lookup_merge_partial. apply add_cells_comm.
  - intros m1 m2 m3. apply map_eq. intros k.
    rewrite !lookup_merge_partial. apply add_cells_assoc.
  - apply aggregate_app.
  - intros parts. unfold Matrix.aggregate_parts.
    induction parts as [|p parts IH]; [done|].
    simpl. by rewrite IH, aggregate_app.
  - apply lookup_aggregate.
Qed.

End MatrixSums.

Section MatrixExample.

Local Open Scope string_scope.

Lemma matrix_builder_sums_example :
  scenario_entries ≡ₚ rev scenario_entries ∧
  Matrix.aggregate scenario_entries = Matrix.aggregate (rev scenario_entries) ∧
  Matrix.aggregate scenario_entries !! ("ACGT", "g1") = Some 5.
Proof.
  assert (Hp : scenario_entries ≡ₚ rev scenario_entries) by apply Permutation_rev.
  split; [exact Hp|]. split.
  - exact (proj1 matrix_builder_sums _ _ Hp).
  - rewrite (proj2 (proj2 (proj2 (proj2 (proj2 matrix_builder_sums))))).
    reflexivity.
Qed.

End MatrixExample.

(* ===================================================================== *)
(** ** Per-record errors                                                  *)
(* ===================================================================== *)

Section StageFacts.

Context {A B : Type}.
Variable handle : A → Pipeline.error_kind + B.

Abbreviation outputs := (λ l, (Pipeline.run_stage handle l).1).
Abbreviation tallies := (λ l, (Pipeline.run_stage handle l).2).

Lemma run_stage_cons_error (r : A) (l : list A) (k : Pipeline.error_kind) :
  handle r = inl k →
  outputs (r :: l) = outputs l ∧
  ∀ k', tallies (r :: l) k' = tallies l k' + (if decide (k' = k) then 1 else 0).
Proof.
  intros Hr. simpl. destruct (Pipeline.run_stage handle l) as [out c].
  rewrite Hr. simpl. split; [done|].
  intros k'. unfold Pipeline.tally. case_decide; lia.
Qed.

Lemma run_stage_cons_ok (r : A) (l : list A) (b : B) :
  handle r = inr b →
  outputs (r :: l) = b :: outputs l ∧ ∀ k', tallies (r :: l) k' = tallies l k'.
Proof.
  intros Hr. simpl. destruct (Pipeline.run_stage handle l) as [out c].
  by rewrite Hr.
Qed.

Lemma run_stage_app (l1 l2 : list A) :
  outputs (l1 ++ l2) = outputs l1 ++ outputs l2 ∧
  ∀ k, tallies (l1 ++ l2) k = tallies l1 k + tallies l2 k.
Proof.
  induction l1 as [|r l1 [IHo IHc]]; [done|].
  rewrite <- app_comm_cons.
  destruct (handle r) as [k|b] eqn:Hr.
  - destruct (run_stage_cons_error r (l1 ++ l2) k Hr) as [-> Hc].
    destruct (run_stage_cons_error r l1 k Hr) as [-> Hc1].
    split; [done|]. intros k'. rewrite Hc, Hc1, IHc. lia.
  - destruct (run_stage_cons_ok r (l1 ++ l2) b Hr) as [-> Hc].
    destruct (run_stage_cons_ok r l1 b Hr) as [-> Hc1].
    split; [by rewrite IHo|]. intros k'. by rewrite Hc, Hc1, IHc.
Qed.

(** A record with an error changes nothing but its counter. *)
Lemma run_stage_drops (l1 l2 : list A) (r : A) (k : Pipeline.error_kind) :
  handle r = inl k →
  outputs (l1 ++ r :: l2) = outputs (l1 ++ l2) ∧
  ∀ k', tallies (l1 ++ r :: l2) k'
        = tallies (l1 ++ l2) k' + (if decide (k' = k) then 1 else 0).
Proof.
  intros Hr.
  destruct (run_stage_app l1 (r :: l2)) as [-> Hc].
  destruct (run_stage_app l1 l2) as [-> Hc'].
  destruct (run_stage_cons_error r l2 k Hr) as [-> Hc2].
  split; [done|]. intros k'. rewrite Hc, Hc', Hc2. lia.
Qed.

Lemma run_stage_keeps (l1 l2 : list A) (r : A) (b : B) :
  handle r = inr b →
  outputs (l1 ++ r :: l2) = outputs l1 ++ b :: outputs l2 ∧
  ∀ k', tallies (l1 ++ r :: l2) k' = tallies (l1 ++ l2) k'.
Proof.
  intros Hr.
  destruct (run_stage_app l1 (r :: l2)) as [-> Hc].
  destruct (run_stage_app l1 l2) as [_ Hc'].
  destruct (run_stage_cons_ok r l2 b Hr) as [-> Hc2].
  split; [done|]. intros k'. by rewrite Hc, Hc', Hc2.
Qed.

(** Every record is either in the output or in a counter. *)
Lemma run_stage_accounts (l : list A) :
  length (outputs l) + Pipeline.total_errors (tallies l) = length l.
Proof.
  induction l as [|r l IH]; [done|].
  destruct (handle r) as [k|b] eqn:Hr.
  - destruct (run_stage_cons_error r l k Hr) as [-> Hc].
    unfold Pipeline.total_errors in *. rewrite !Hc.
    destruct k; repeat case_decide; try done; simpl; lia.
  - destruct (run_stage_cons_ok r l b Hr) as [-> Hc].
    unfold Pipeline.total_errors in *. rewrite !Hc. simpl. lia.
Qed.

End StageFacts.

(** What is decoded is the majority of its triplet: the decoded symbols
    determine the triplets up to one base each. *)
Lemma decode_triplets_majority (position : nat) (bases xs : list ascii)
    (ks : list nat) :
  Trimer.decode_triplets position bases = Trimer.Decoded xs ks →
  ∃ ts, bases = Trimer.flatten ts ∧ Forall2 Trimer.near_trimer xs ts.
Proof.
  revert position bases ks. induction xs as [|x xs IH]; intros position bases ks.
  - destruct bases as [|a [|b [|c rest]]]; simpl; try done.
    + intros _. exists []. by split.
    + destruct (Trimer.decode_triplet a b c) as [[y k]|]; [|done].
      by destruct (Trimer.decode_triplets (S position) rest).
  - destruct bases as [|a [|b [|c rest]]]; simpl; try done.
    destruct (Trimer.decode_triplet a b c) as [[y k]|] eqn:Hd; [|done].
    destruct (Trimer.decode_triplets (S position) rest) as [ys ks'| |] eqn:Hrest;
      try done.
    intros [= -> -> <-].
    destruct (IH _ _ _ Hrest) as (ts & -> & Hts).
    exists ((a, b, c) :: ts). split; [done|].
    constructor; [|done]. by apply decode_triplet_emits in Hd as [? _].
Qed.

(** A corrected barcode is the whitelist entry nearest to the decoded
    one: its distance is the one reported, it is within the threshold, no
    entry is nearer and no other entry is as near. *)
Lemma correct_sound (t d : nat) (W : list string) (b w : string) :
  Corrector.correct t W b = Some (Corrector.Corrected w d) →
  w ∈ W ∧ Corrector.hamming b w = d ∧ d ≤ t ∧
  (∀ w', w' ∈ W → d ≤ Corrector.hamming b w') ∧
  (∀ w', w' ∈ W → Corrector.hamming b w' = d → w' = w).
Proof.
  unfold Corrector.correct.
  destruct W as [|w0 ws]; [done|].
  destruct (min_distance_spec b (w0 :: ws)) as (d' & -> & Hmin & (w1 & Hw1 & Hd1));
    [done|].
  case_decide as Hzero.
  - intros [= <- <-]. rewrite Hzero in Hd1. apply hamming_0_iff in Hd1 as <-.
    split; [done|]. split; [by apply hamming_0_iff|]. split; [lia|].
    split; [intros; lia|].
    intros w' _ Hw'. by apply hamming_0_iff in Hw'.
  - case_decide as Hle; [|done].
    destruct (Corrector.neighbours b (w0 :: ws) d') as [|u [|v l]] eqn:Hn;
      try done.
    intros [= <- <-].
    assert (Hu : ∀ w', w' ∈ w0 :: ws ∧ Corrector.hamming b w' = d' ↔ w' = u).
    { intros w'. by rewrite <- elem_of_neighbours, Hn, list_elem_of_singleton. }
    destruct (proj2 (Hu u) eq_refl) as [? ?].
    split; [done|]. split; [done|]. split; [done|]. split; [done|].
    intros w' ? ?. by apply Hu.
Qed.

(** Two distinct entries at the smallest distance, within the threshold:
    the correction is ambiguous, neither entry is chosen. *)
Lemma correct_tied (t d : nat) (W : list string) (b w1 w2 : string) :
  w1 ∈ W → w2 ∈ W → w1 ≠ w2 →
  Corrector.hamming b w1 = d → Corrector.hamming b w2 = d →
  (∀ w, w ∈ W → d ≤ Corrector.hamming b w) → d ≤ t →
  Corrector.correct t W b = Some Corrector.AmbiguousCorrection.
Proof.
  intros Hw1 Hw2 Hne Hd1 Hd2 Hmin Hdt.
  assert (HW : W ≠ []) by (intros ->; by apply elem_of_nil in Hw1).
  destruct (min_distance_spec b W HW) as (d' & Hd' & Hle & (w & Hw & Hdw)).
  assert (d' = d) as ->.
  { specialize (Hle _ Hw1). specialize (Hmin _ Hw). lia. }
  unfold Corrector.correct. rewrite Hd'.
  rewrite decide_False.
  2:{ intros ->. apply hamming_0_iff in Hd1, Hd2. congruence. }
  rewrite decide_True by done.
  by destruct (neighbours_tie b w1 w2 W d) as (u & v & l & ->).
Qed.

(** Every entry further than the threshold: no whitelist match. *)
Lemma correct_far (t : nat) (W : list string) (b : string) :
  W ≠ [] → (∀ w, w ∈ W → t < Corrector.hamming b w) →
  Corrector.correct t W b = Some Corrector.NoWhitelistMatch.
Proof.
  intros HW Hfar.
  destruct (min_distance_spec b W HW) as (d & Hd & _ & (w & Hw & Hdw)).
  specialize (Hfar _ Hw).
  unfold Corrector.correct. rewrite Hd. by rewrite !decide_False by lia.
Qed.

Section RecordErrors.

Local Open Scope char_scope.



End RecordErrors.

(* ===================================================================== *)
(** ** Task graphs: what a target needs and that it can be reached         *)
(* ===================================================================== *)

Lemma elem_of_rev {A} (x : A) (l : list A) : x ∈ rev l ↔ x ∈ l.
Proof. rewrite !list_elem_of_In. symmetry. apply in_rev. Qed.

Section DependencyFacts.

Context {task : Type} `{EqDecision task}.
Variable upstream : task → list task.
Variable per_chunk : task → bool.
Variable chunks : nat.

Abbreviation run := (Ruffus.run upstream per_chunk chunks).
Abbreviation complete := (Ruffus.complete per_chunk chunks).
Abbreviation jobs_of := (Ruffus.jobs_of per_chunk chunks).
Abbreviation valid_from := (Ruffus.valid_from upstream per_chunk chunks).
Abbreviation depends_on := (Dependency.depends_on upstream).
Abbreviation schedule := (Dependency.schedule per_chunk chunks).

Lemma ancestors_sound (depth : nat) (x y : task) :
  y ∈ Dependency.ancestors upstream depth x → depends_on x y.
Proof.
  revert x. induction depth as [|depth IH]; intros x; simpl.
  - by intros ?%elem_of_nil.
  - rewrite elem_of_app. intros [Hy|Hy]; [by constructor|].
    apply list_elem_of_In, in_flat_map in Hy as (u & Hu & Hy).
    apply list_elem_of_In in Hu, Hy.
    eapply Dependency.depends_through; [done|]. by apply IH.
Qed.

Lemma complete_more (later fin : list Ruffus.job) (x : task) :
  complete fin x → complete (later ++ fin) x.
Proof.
  unfold Ruffus.complete. intros Hx.
  eapply Forall_impl; [exact Hx|]. intros j Hj.
  apply elem_of_app. by right.
Qed.

Lemma jobs_of_task (x : task) (j : Ruffus.job) : j ∈ jobs_of x → j.1 = x.
Proof.
  unfold Ruffus.jobs_of. destruct (per_chunk x).
  - by intros (c & -> & _)%list_elem_of_fmap.
  - by intros ->%list_elem_of_singleton.
Qed.

Lemma jobs_of_NoDup (x : task) : NoDup (jobs_of x).
Proof.
  unfold Ruffus.jobs_of. destruct (per_chunk x); [|apply NoDup_singleton].
  apply (NoDup_fmap_2 (pair x)), NoDup_ListNoDup, seq_NoDup.
Qed.

Lemma complete_has_job (fin : list Ruffus.job) (x : task) :
  0 < chunks → complete fin x → ∃ j, j ∈ fin ∧ j.1 = x.
Proof.
  intros Hn Hx. unfold Ruffus.complete, Ruffus.jobs_of in Hx.
  exists (x, 0). split; [|done].
  destruct (per_chunk x).
  - rewrite Forall_forall in Hx. apply Hx, list_elem_of_fmap.
    exists 0. split; [done|]. apply list_elem_of_In, in_seq. lia.
  - by apply Forall_cons_1 in Hx as [? _].
Qed.

Lemma run_depends_complete (x y : task) :
  0 < chunks → depends_on x y →
  ∀ (fin : list Ruffus.job) (j : Ruffus.job),
    run fin → j ∈ fin → j.1 = x → complete fin y.
Proof.
  intros Hn. induction 1 as [x y Hy|x y z Hy _ IH]; intros fin j Hrun Hj <-.
  - apply list_elem_of_split in Hj as (later & earlier & ->).
    apply run_started_after in Hrun. rewrite Forall_forall in Hrun.
    change (later ++ j :: earlier) with (later ++ [j] ++ earlier).
    rewrite (assoc app). by apply complete_more, Hrun.
  - apply list_elem_of_split in Hj as (later & earlier & ->).
    pose proof (run_started_after _ _ _ _ _ _ Hrun) as Hup.
    rewrite Forall_forall in Hup. specialize (Hup _ Hy).
    destruct (complete_has_job _ _ Hn Hup) as (j' & Hj' & Hj'y).
    change (later ++ j :: earlier) with (later ++ [j] ++ earlier) in *.
    rewrite (assoc app) in *. apply run_suffix in Hrun.
    apply complete_more. by apply (IH earlier j').
Qed.

Lemma valid_from_app (fin s1 s2 : list Ruffus.job) :
  valid_from fin (s1 ++ s2)
  = valid_from fin s1 && valid_from (rev s1 ++ fin) s2.
Proof.
  revert fin. induction s1 as [|j s1 IH]; intros fin; [done|].
  simpl. rewrite IH, <- (assoc app). simpl. by rewrite andb_assoc.
Qed.

Lemma valid_from_one_task (x : task) (js fin : list Ruffus.job) :
  (∀ j, j ∈ js → j ∈ jobs_of x) → NoDup js →
  (∀ j, j ∈ js → j ∉ fin) →
  Forall (complete fin) (upstream x) →
  valid_from fin js = true.
Proof.
  revert fin. induction js as [|j js IH]; intros fin Hjobs Hnd Hnew Hup; [done|].
  apply NoDup_cons in Hnd as [Hj Hnd].
  assert (Hjx : j.1 = x) by (apply jobs_of_task, Hjobs; by left).
  simpl. apply andb_true_intro. split.
  - apply bool_decide_eq_true. unfold Ruffus.enabled. rewrite Hjx.
    split; [apply Hjobs; by left|]. split; [apply Hnew; by left|done].
  - apply IH; [| done | |].
    + intros j' Hj'. apply Hjobs. by right.
    + intros j' Hj'. rewrite not_elem_of_cons. split.
      * intros ->. done.
      * apply Hnew. by right.
    + eapply Forall_impl; [exact Hup|]. intros u Hu.
      by apply (complete_more [j]).
Qed.

Lemma valid_from_schedule (order earlier : list task) (fin : list Ruffus.job) :
  Dependency.topological upstream earlier order = true →
  (∀ x, x ∈ earlier → complete fin x) →
  (∀ j, j ∈ fin → j.1 ∈ earlier) →
  valid_from fin (schedule order) = true ∧
  (∀ x, x ∈ order ++ earlier → complete (rev (schedule order) ++ fin) x) ∧
  (∀ j, j ∈ rev (schedule order) ++ fin → j.1 ∈ order ++ earlier).
Proof.
  revert earlier fin. induction order as [|x order IH];
    intros earlier fin Htopo Hdone Htasks; [done|].
  simpl in Htopo.
  apply andb_prop in Htopo as [[Hnew Hup]%andb_prop Hrest].
  apply bool_decide_eq_true in Hnew.
  assert (Hup' : Forall (complete fin) (upstream x)).
  { apply Forall_forall. intros u Hu. apply Hdone.
    rewrite forallb_forall in Hup. apply list_elem_of_In in Hu.
    specialize (Hup _ Hu). by apply bool_decide_eq_true in Hup. }
  assert (Hx : valid_from fin (jobs_of x) = true).
  { apply (valid_from_one_task x); [done|apply jobs_of_NoDup| |done].
    intros j Hj Hfin. apply Hnew. rewrite <- (jobs_of_task _ _ Hj).
    by apply Htasks. }
  destruct (IH (x :: earlier) (rev (jobs_of x) ++ fin) Hrest) as (Hv & Hc & Ht).
  { intros y [->|Hy]%elem_of_cons.
    - unfold Ruffus.complete. apply Forall_forall. intros j Hj.
      apply elem_of_app. left. by apply elem_of_rev.
    - by apply complete_more, Hdone. }
  { intros j [Hj|Hj]%elem_of_app.
    - rewrite elem_of_rev in Hj. rewrite (jobs_of_task _ _ Hj). by left.
    - right. by apply Htasks. }
  unfold Dependency.schedule in *. cbn [flat_map].
  rewrite valid_from_app, Hx, rev_app_distr, <- !app_assoc.
  split; [done|]. split.
  - intros y Hy. apply Hc.
    change ((x :: order) ++ earlier) with (x :: (order ++ earlier)) in Hy.
    rewrite elem_of_cons, elem_of_app in Hy.
    rewrite elem_of_app, elem_of_cons. tauto.
  - intros j Hj. specialize (Ht j Hj).
    change ((x :: order) ++ earlier) with (x :: (order ++ earlier)).
    rewrite elem_of_app, elem_of_cons in Ht.
    rewrite elem_of_cons, elem_of_app. tauto.
Qed.

End DependencyFacts.

(** X1.  In every run of a pipeline on at least one chunk, when a job
    starts, every task that its task depends on, directly or through
    other tasks, is complete. *)
Theorem run_after_all_dependencies
    {task : Type} `{EqDecision task}
    (upstream : task → list task) (per_chunk : task → bool) (chunks : nat)
    (later earlier : list Ruffus.job) (j : Ruffus.job) (y : task) :
  0 < chunks →
  Ruffus.run upstream per_chunk chunks (later ++ j :: earlier) →
  Dependency.depends_on upstream (j.1) y →
  Ruffus.complete per_chunk chunks earlier y.
Proof.
  intros Hn Hrun Hdep.
  pose proof (run_started_after _ _ _ _ _ _ Hrun) as Hup.
  rewrite Forall_forall in Hup.
  inversion Hdep as [? ? Hy|? u ? Hu Huy]; subst; [by apply Hup|].
  specialize (Hup _ Hu).
  destruct (complete_has_job _ _ _ _ Hn Hup) as (j' & Hj' & Hj'u).
  change (later ++ j :: earlier) with (later ++ [j] ++ earlier) in Hrun.
  rewrite (assoc app) in Hrun. apply run_suffix in Hrun.
  apply (run_depends_complete upstream per_chunk chunks u y Hn Huy earlier j');
    done.
Qed.

Lemma run_after_all_dependencies_witness :
  0 < 2 ∧
  Ruffus.run TenX.Task.upstream TenX.Task.per_chunk 2
    ([] ++ (TenX.Task.correct_reads, 1) :: rev (take 6 tenx_schedule)) ∧
  Dependency.depends_on TenX.Task.upstream TenX.Task.correct_reads
    TenX.Task.split_fastq ∧
  Ruffus.complete TenX.Task.per_chunk 2 (rev (take 6 tenx_schedule))
    TenX.Task.split_fastq.
Proof.
  assert (Hn : 0 < 2) by lia.
  assert (Hrun : Ruffus.run TenX.Task.upstream TenX.Task.per_chunk 2
                   ([] ++ (TenX.Task.correct_reads, 1) ::
                      rev (take 6 tenx_schedule))).
  { change (Ruffus.run TenX.Task.upstream TenX.Task.per_chunk 2
              (rev (take 7 tenx_schedule) ++ [])).
    apply valid_from_run; [constructor|]. by vm_compute. }
  assert (Hdep : Dependency.depends_on TenX.Task.upstream
                   TenX.Task.correct_reads TenX.Task.split_fastq).
  { apply (ancestors_sound _ 3). by_computation. }
  split; [exact Hn|]. split; [exact Hrun|]. split; [exact Hdep|].
  exact (run_after_all_dependencies _ _ _ _ _ (TenX.Task.correct_reads, 1) _
           Hn Hrun Hdep).
Defined.

Lemma schedule_is_run
    {task : Type} `{EqDecision task}
    (upstream : task → list task) (per_chunk : task → bool) (chunks : nat)
    (order : list task) :
  Dependency.topological upstream [] order = true →
  Ruffus.run upstream per_chunk chunks
    (rev (Dependency.schedule per_chunk chunks order)) ∧
  (∀ x, x ∈ order →
     Ruffus.complete per_chunk chunks
       (rev (Dependency.schedule per_chunk chunks order)) x) ∧
  (∀ j, j ∈ rev (Dependency.schedule per_chunk chunks order) → j.1 ∈ order).
Proof.
  intros Htopo.
  destruct (valid_from_schedule upstream per_chunk chunks order [] [] Htopo)
    as (Hvalid & Hcomplete & Htasks).
  { by intros x ?%elem_of_nil. }
  { by intros j ?%elem_of_nil. }
  rewrite !app_nil_r in *. split; [|by split].
  rewrite <- (app_nil_r (rev _)). apply valid_from_run; [constructor|done].
Qed.

(** X2.  If a list of tasks names every task after the tasks upstream
    of it, then running the jobs of these tasks in that order is a run of
    the pipeline; it completes every task of the list and runs no job of
    another task. *)
Theorem topological_schedule_runs
    {task : Type} `{EqDecision task}
    (upstream : task → list task) (per_chunk : task → bool) (chunks : nat)
    (order : list task) :
  Dependency.topological upstream [] order = true →
  Ruffus.run upstream per_chunk chunks
    (rev (Dependency.schedule per_chunk chunks order)) ∧
  (∀ x, x ∈ order →
     Ruffus.complete per_chunk chunks
       (rev (Dependency.schedule per_chunk chunks order)) x) ∧
  (∀ j, j ∈ rev (Dependency.schedule per_chunk chunks order) → j.1 ∈ order).
Proof. apply schedule_is_run. Qed.

Lemma topological_schedule_runs_witness :
  Dependency.topological Illumina.Task.upstream [] illumina_order = true ∧
  Ruffus.run Illumina.Task.upstream Illumina.Task.per_chunk 3
    (rev (Dependency.schedule Illumina.Task.per_chunk 3 illumina_order)).
Proof.
  assert (Htopo : Dependency.topological Illumina.Task.upstream []
                    illumina_order = true) by (by vm_compute).
  split; [exact Htopo|].
  exact (proj1 (topological_schedule_runs _ Illumina.Task.per_chunk 3 _ Htopo)).
Defined.

Lemma complete_single_job {task : Type} `{EqDecision task}
    (per_chunk : task → bool) (chunks : nat) (fin : list Ruffus.job) (x : task) :
  per_chunk x = false → (x, 0) ∈ fin → Ruffus.complete per_chunk chunks fin x.
Proof.
  intros Hx Hin. unfold Ruffus.complete, Ruffus.jobs_of. rewrite Hx.
  by repeat constructor.
Qed.

(** X3.  In the 10x pipeline, for every number of chunks, the tasks in
    the order of the file can run and complete [full]; and in every run on
    at least one chunk in which [full] has run, all jobs of all tasks have
    run. *)
Theorem tenx_full_needs_every_task (chunks : nat) :
  (Ruffus.run TenX.Task.upstream TenX.Task.per_chunk chunks
     (rev (Dependency.schedule TenX.Task.per_chunk chunks tenx_order)) ∧
   (TenX.Task.full, 0)
   ∈ rev (Dependency.schedule TenX.Task.per_chunk chunks tenx_order)) ∧
  (∀ fin : list Ruffus.job,
     0 < chunks →
     Ruffus.run TenX.Task.upstream TenX.Task.per_chunk chunks fin →
     (TenX.Task.full, 0) ∈ fin →
     ∀ x, Ruffus.complete TenX.Task.per_chunk chunks fin x).
Proof.
  split.
  - destruct (schedule_is_run TenX.Task.upstream TenX.Task.per_chunk
                chunks tenx_order) as (Hrun & Hcomplete & _); [by vm_compute|].
    split; [done|].
    eapply (complete_single TenX.Task.per_chunk chunks); [|apply Hcomplete];
      [done|by_computation].
  - intros fin Hn Hrun Hfull x.
    destruct (decide (x = TenX.Task.full)) as [->|Hx].
    { by apply complete_single_job. }
    apply (run_depends_complete TenX.Task.upstream TenX.Task.per_chunk chunks
             TenX.Task.full x Hn) with (j := (TenX.Task.full, 0)); [|done..].
    apply (ancestors_sound _ 11). destruct x; try done; by_computation.
Qed.

Lemma tenx_full_needs_every_task_witness :
  0 < 2 ∧
  Ruffus.run TenX.Task.upstream TenX.Task.per_chunk 2 (rev tenx_schedule) ∧
  (TenX.Task.full, 0) ∈ rev tenx_schedule ∧
  Ruffus.complete TenX.Task.per_chunk 2 (rev tenx_schedule)
    TenX.Task.merge_whitelist.
Proof.
  assert (Hn : 0 < 2) by lia.
  assert (Hrun : Ruffus.run TenX.Task.upstream TenX.Task.per_chunk 2
                   (rev tenx_schedule)).
  { rewrite <- (app_nil_r (rev tenx_schedule)).
    apply valid_from_run; [constructor|]. by vm_compute. }
  assert (Hfull : (TenX.Task.full, 0) ∈ rev tenx_schedule) by by_computation.
  split; [exact Hn|]. split; [exact Hrun|]. split; [exact Hfull|].
  exact (proj2 (tenx_full_needs_every_task 2) _ Hn Hrun Hfull _).
Defined.

(** X4.  In the single-cell pipeline, for every number of chunks, [full]
    can be completed by a run that has no job of [merge_whitelist],
    [merge_uncorrect_reads] or [mapping_trimer]; and in every run on at
    least one chunk in which [full] has run, all jobs of every other task
    have run. *)
Theorem single_cell_full_needs (chunks : nat) :
  (Ruffus.run SingleCell.Task.upstream SingleCell.Task.per_chunk chunks
     (rev (Dependency.schedule SingleCell.Task.per_chunk chunks single_cell_order)) ∧
   (SingleCell.Task.full, 0)
   ∈ rev (Dependency.schedule SingleCell.Task.per_chunk chunks single_cell_order) ∧
   ∀ j, j ∈ rev (Dependency.schedule SingleCell.Task.per_chunk chunks
                   single_cell_order) →
        j.1 ≠ SingleCell.Task.merge_whitelist ∧
        j.1 ≠ SingleCell.Task.merge_uncorrect_reads ∧
        j.1 ≠ SingleCell.Task.mapping_trimer) ∧
  (∀ fin : list Ruffus.job,
     0 < chunks →
     Ruffus.run SingleCell.Task.upstream SingleCell.Task.per_chunk chunks fin →
     (SingleCell.Task.full, 0) ∈ fin →
     ∀ x, x ≠ SingleCell.Task.merge_whitelist →
          x ≠ SingleCell.Task.merge_uncorrect_reads →
          x ≠ SingleCell.Task.mapping_trimer →
          Ruffus.complete SingleCell.Task.per_chunk chunks fin x).
Proof.
  split.
  - destruct (schedule_is_run SingleCell.Task.upstream SingleCell.Task.per_chunk
                chunks single_cell_order) as (Hrun & Hcomplete & Htasks);
      [by vm_compute|].
    split; [done|]. split.
    + eapply (complete_single SingleCell.Task.per_chunk chunks);
        [|apply Hcomplete]; [done|by_computation].
    + intros j Hj. specialize (Htasks j Hj).
      repeat split; intros Heq; rewrite Heq in Htasks;
        revert Htasks; by_computation.
  - intros fin Hn Hrun Hfull x H1 H2 H3.
    destruct (decide (x = SingleCell.Task.full)) as [->|Hx].
    { by apply complete_single_job. }
    apply (run_depends_complete SingleCell.Task.upstream
             SingleCell.Task.per_chunk chunks SingleCell.Task.full x Hn)
      with (j := (SingleCell.Task.full, 0)); [|done..].
    apply (ancestors_sound _ 10). destruct x; try done; by_computation.
Qed.

Lemma single_cell_full_needs_witness :
  0 < 2 ∧
  Ruffus.run SingleCell.Task.upstream SingleCell.Task.per_chunk 2
    (rev single_cell_schedule) ∧
  (SingleCell.Task.full, 0) ∈ rev single_cell_schedule ∧
  Ruffus.complete SingleCell.Task.per_chunk 2 (rev single_cell_schedule)
    SingleCell.Task.collapse_reads.
Proof.
  assert (Hn : 0 < 2) by lia.
  assert (Hrun : Ruffus.run SingleCell.Task.upstream SingleCell.Task.per_chunk 2
                   (rev single_cell_schedule)).
  { rewrite <- (app_nil_r (rev single_cell_schedule)).
    apply valid_from_run; [constructor|]. by vm_compute. }
  assert (Hfull : (SingleCell.Task.full, 0) ∈ rev single_cell_schedule)
    by by_computation.
  split; [exact Hn|]. split; [exact Hrun|]. split; [exact Hfull|].
  apply (proj2 (single_cell_full_needs 2) _ Hn Hrun Hfull); discriminate.
Defined.

(** X5.  In the barcode pipeline [full] depends on [seperate_by_barcode]
    and on nothing else: neither [split_fastq] nor [correct_polyA] is
    upstream of it. *)
Theorem barcode_full_depends (x : Barcode.Task.t) :
  Dependency.depends_on Barcode.Task.upstream Barcode.Task.full x
  ↔ x = Barcode.Task.seperate_by_barcode.
Proof.
  split.
  - intros Hdep. inversion Hdep as [? ? Hy|? u ? Hu Hux]; subst.
    + by apply list_elem_of_singleton in Hy.
    + apply list_elem_of_singleton in Hu as ->.
      inversion Hux as [? ? Hy|? u ? Hu _]; subst; by apply elem_of_nil in Hy || by apply elem_of_nil in Hu.
  - intros ->. constructor. by left.
Qed.

(** X6.  In the illumina pipeline, for every number of samples, the
    tasks in the order of the file can run and complete [full]; and in
    every run on at least one sample in which [full] has run, all jobs of
    all tasks have run. *)
Theorem illumina_full_needs_every_task (chunks : nat) :
  (Ruffus.run Illumina.Task.upstream Illumina.Task.per_chunk chunks
     (rev (Dependency.schedule Illumina.Task.per_chunk chunks illumina_order)) ∧
   (Illumina.Task.full, 0)
   ∈ rev (Dependency.schedule Illumina.Task.per_chunk chunks illumina_order)) ∧
  (∀ fin : list Ruffus.job,
     0 < chunks →
     Ruffus.run Illumina.Task.upstream Illumina.Task.per_chunk chunks fin →
     (Illumina.Task.full, 0) ∈ fin →
     ∀ x, Ruffus.complete Illumina.Task.per_chunk chunks fin x).
Proof.
  split.
  - destruct (schedule_is_run Illumina.Task.upstream Illumina.Task.per_chunk
                chunks illumina_order) as (Hrun & Hcomplete & _); [by vm_compute|].
    split; [done|].
    eapply (complete_single Illumina.Task.per_chunk chunks); [|apply Hcomplete];
      [done|by_computation].
  - intros fin Hn Hrun Hfull x.
    destruct (decide (x = Illumina.Task.full)) as [->|Hx].
    { by apply complete_single_job. }
    apply (run_depends_complete Illumina.Task.upstream Illumina.Task.per_chunk
             chunks Illumina.Task.full x Hn) with (j := (Illumina.Task.full, 0));
      [|done..].
    apply (ancestors_sound _ 6). destruct x; try done; by_computation.
Qed.

Lemma illumina_full_needs_every_task_witness :
  0 < 1 ∧
  Ruffus.run Illumina.Task.upstream Illumina.Task.per_chunk 1
    (rev (Dependency.schedule Illumina.Task.per_chunk 1 illumina_order)) ∧
  (Illumina.Task.full, 0)
  ∈ rev (Dependency.schedule Illumina.Task.per_chunk 1 illumina_order) ∧
  Ruffus.complete Illumina.Task.per_chunk 1
    (rev (Dependency.schedule Illumina.Task.per_chunk 1 illumina_order))
    Illumina.Task.count_genes_noumis.
Proof.
  assert (Hn : 0 < 1) by lia.
  assert (Hrun : Ruffus.run Illumina.Task.upstream Illumina.Task.per_chunk 1
            (rev (Dependency.schedule Illumina.Task.per_chunk 1 illumina_order))).
  { rewrite <- (app_nil_r (rev _)).
    apply valid_from_run; [constructor|]. by vm_compute. }
  assert (Hfull : (Illumina.Task.full, 0)
            ∈ rev (Dependency.schedule Illumina.Task.per_chunk 1 illumina_order))
    by by_computation.
  split; [exact Hn|]. split; [exact Hrun|]. split; [exact Hfull|].
  exact (proj2 (illumina_full_needs_every_task 1) _ Hn Hrun Hfull _).
Defined.

(* ===================================================================== *)
(** ** Chunks                                                             *)
(* ===================================================================== *)

Section SplitFacts.

Variable n : nat.
Hypothesis n_positive : 0 < n.

Lemma pieces_concat (fuel : nat) (lines : list string) :
  length lines ≤ fuel → concat (Split.pieces fuel n lines) = lines.
Proof.
  revert lines. induction fuel as [|fuel IH]; intros [|x lines] Hlen;
    simpl in *; try done; try lia.
  rewrite IH.
  - destruct n as [|m]; [lia|]. simpl. by rewrite take_drop.
  - destruct n as [|m]; [lia|]. simpl. rewrite length_drop. lia.
Qed.

Lemma pieces_sizes (fuel : nat) (lines : list string) :
  length lines ≤ fuel →
  Forall (λ c, 0 < length c ≤ n) (Split.pieces fuel n lines).
Proof.
  revert lines. induction fuel as [|fuel IH]; intros [|x lines] Hlen;
    simpl in *; try done; try lia.
  constructor.
  - destruct n as [|m]; [lia|]. simpl. rewrite length_take. lia.
  - apply IH. destruct n as [|m]; [lia|]. simpl. rewrite length_drop. lia.
Qed.

Lemma pieces_full (fuel : nat) (lines : list string) (i : nat) (c : list string) :
  length lines ≤ fuel →
  Split.pieces fuel n lines !! i = Some c →
  S i < length (Split.pieces fuel n lines) →
  length c = n.
Proof.
  revert lines i. induction fuel as [|fuel IH]; intros [|x lines] i Hlen;
    simpl in *; try done; try lia.
  destruct i as [|i]; simpl.
  - intros [= <-] Hmore.
    destruct (drop n (x :: lines)) as [|y rest] eqn:Hdrop.
    { destruct fuel; simpl in Hmore; lia. }
    assert (length (drop n (x :: lines)) ≠ 0) by (by rewrite Hdrop).
    rewrite length_drop in *. rewrite length_take. simpl in *. lia.
  - intros Hc Hmore. apply (IH (drop n (x :: lines)) i); [|done|lia].
    destruct n as [|m]; [lia|]. simpl. rewrite length_drop. lia.
Qed.

Lemma pieces_count (fuel : nat) (lines : list string) :
  length lines ≤ fuel →
  length lines ≤ length (Split.pieces fuel n lines) * n
  ∧ length (Split.pieces fuel n lines) * n < length lines + n.
Proof.
  revert lines. induction fuel as [|fuel IH]; intros [|x lines] Hlen;
    simpl in *; try lia.
  destruct (IH (drop n (x :: lines))) as [IH1 IH2].
  { destruct n as [|m]; [lia|]. simpl. rewrite length_drop. lia. }
  rewrite length_drop in *. simpl in *.
  destruct (decide (n ≤ S (length lines))) as [Hle|Hgt]; [lia|].
  assert (Hnil : drop n (x :: lines) = []).
  { apply drop_ge. simpl. lia. }
  rewrite Hnil in *. destruct fuel; simpl in *; lia.
Qed.

Lemma pieces_records (m fuel : nat) (lines : list string) :
  length lines ≤ fuel → (m | n) → (m | length lines) →
  Forall (λ c, (m | length c)) (Split.pieces fuel n lines).
Proof.
  intros Hlen Hn. revert lines Hlen.
  induction fuel as [|fuel IH]; intros [|x lines] Hlen Hlines;
    simpl in *; try done; try lia.
  constructor.
  - rewrite length_take.
    destruct (Nat.min_spec n (length (x :: lines))) as [[_ ->]|[_ ->]]; done.
  - apply IH.
    + destruct n as [|k]; [lia|]. simpl. rewrite length_drop. lia.
    + rewrite length_drop.
      destruct (decide (n ≤ length (x :: lines))) as [Hle|Hgt].
      * by apply Nat.divide_sub_r.
      * replace (length (x :: lines) - n) with 0 by lia. apply Nat.divide_0_r.
Qed.

End SplitFacts.

(** X7.  [split_fastq] refuses a chunk size of 0.  For a chunk size
    [n > 0] the chunks, concatenated in order, are the input unchanged;
    an empty input gives no chunk. *)
Theorem split_fastq_cat (n : nat) (reads : list string) :
  Split.split_fastq 0 reads = None ∧
  (0 < n →
   ∃ chunks, Split.split_fastq n reads = Some chunks ∧
             Shell.cat chunks = reads ∧
             (reads = [] → chunks = [])).
Proof.
  split; [done|]. intros Hn.
  unfold Split.split_fastq, Split.split_l. rewrite decide_False by lia.
  eexists. split; [done|]. split.
  - by apply pieces_concat.
  - by intros ->.
Qed.

Lemma split_fastq_cat_witness :
  0 < 4 ∧
  ∃ chunks, Split.split_fastq 4 (replicate 10 "l"%string) = Some chunks ∧
            Shell.cat chunks = replicate 10 "l"%string.
Proof.
  assert (Hn : 0 < 4) by lia.
  split; [exact Hn|].
  destruct (proj2 (split_fastq_cat 4 (replicate 10 "l"%string)) Hn)
    as (chunks & Hsplit & Hcat & _).
  by exists chunks.
Defined.

(** X8.  Every chunk written by [split_fastq] has at least one line and
    at most [n]; every chunk but the last has exactly [n]; and the number
    of chunks is the number of lines divided by [n], rounded up. *)
Theorem split_fastq_chunk_sizes (n : nat) (reads : list string)
    (chunks : list (list string)) :
  Split.split_fastq n reads = Some chunks →
  Forall (λ c, 0 < length c ≤ n) chunks ∧
  (∀ i c, chunks !! i = Some c → S i < length chunks → length c = n) ∧
  length reads ≤ length chunks * n < length reads + n.
Proof.
  unfold Split.split_fastq, Split.split_l.
  case_decide as Hn; [done|]. intros [= <-].
  assert (0 < n) by lia.
  split; [by apply pieces_sizes|]. split.
  - intros i c. by apply pieces_full.
  - by apply pieces_count.
Qed.

Lemma split_fastq_chunk_sizes_witness :
  Split.split_fastq 4 (replicate 10 "l"%string)
  = Some [replicate 4 "l"%string; replicate 4 "l"%string; replicate 2 "l"%string] ∧
  length (replicate 10 "l"%string) ≤ 3 * 4 < length (replicate 10 "l"%string) + 4.
Proof.
  assert (Hsplit : Split.split_fastq 4 (replicate 10 "l"%string)
            = Some [replicate 4 "l"%string; replicate 4 "l"%string;
                    replicate 2 "l"%string]) by reflexivity.
  split; [exact Hsplit|].
  exact (proj2 (proj2 (split_fastq_chunk_sizes 4 _ _ Hsplit))).
Defined.

(** X9.  If the chunk size is a multiple of the number of lines of a
    record (4 for FASTQ) and the input consists of whole records, then
    every chunk consists of whole records: no record is cut in two. *)
Theorem split_fastq_whole_records (m n : nat) (reads : list string)
    (chunks : list (list string)) :
  (m | n) → (m | length reads) →
  Split.split_fastq n reads = Some chunks →
  Forall (λ c, (m | length c)) chunks.
Proof.
  intros Hn Hreads. unfold Split.split_fastq, Split.split_l.
  case_decide as Hn0; [done|]. intros [= <-].
  apply pieces_records; [lia|done..].
Qed.

Lemma split_fastq_whole_records_witness :
  (4 | 8) ∧ (4 | length (replicate 12 "l"%string)) ∧
  Split.split_fastq 8 (replicate 12 "l"%string)
  = Some [replicate 8 "l"%string; replicate 4 "l"%string] ∧
  Forall (λ c : list string, (4 | length c))
    [replicate 8 "l"%string; replicate 4 "l"%string].
Proof.
  assert (H8 : (4 | 8)) by (exists 2; reflexivity).
  assert (H12 : (4 | length (replicate 12 "l"%string))) by (exists 3; reflexivity).
  assert (Hsplit : Split.split_fastq 8 (replicate 12 "l"%string)
            = Some [replicate 8 "l"%string; replicate 4 "l"%string])
    by reflexivity.
  split; [exact H8|]. split; [exact H12|]. split; [exact Hsplit|].
  exact (split_fastq_whole_records 4 8 _ _ H8 H12 Hsplit).
Defined.

Lemma uniq_cons (a b : string) (tl : list string) :
  Shell.uniq (a :: b :: tl)
  = if String.eqb a b then Shell.uniq (b :: tl) else a :: Shell.uniq (b :: tl).
Proof. done. Qed.

Lemma uniq_head (a : string) (tl : list string) :
  ∃ rest, Shell.uniq (a :: tl) = a :: rest.
Proof.
  revert a. induction tl as [|b tl IH]; intros a; [by exists []|].
  rewrite uniq_cons. destruct (String.eqb_spec a b) as [->|_]; [apply IH|eauto].
Qed.

Lemma uniq_no_adjacent (l : list string) :
  Sorted (λ a b, a ≠ b) (Shell.uniq l).
Proof.
  induction l as [|a tl IH]; [constructor|].
  destruct tl as [|b tl]; [by repeat constructor|].
  rewrite uniq_cons. destruct (String.eqb_spec a b) as [->|Hne]; [done|].
  constructor; [done|].
  destruct (uniq_head b tl) as (rest & ->). by constructor.
Qed.

Lemma uniq_fixed (l : list string) :
  Sorted (λ a b, a ≠ b) l → Shell.uniq l = l.
Proof.
  induction 1 as [|a tl _ IH Hhd]; [done|].
  destruct tl as [|b tl]; [done|].
  rewrite uniq_cons. apply HdRel_inv in Hhd.
  destruct (String.eqb_spec a b) as [->|_]; [done|]. by rewrite IH.
Qed.

Lemma uniq_sublist (l : list string) : sublist (Shell.uniq l) l.
Proof.
  induction l as [|a tl IH]; [done|].
  destruct tl as [|b tl]; [done|].
  rewrite uniq_cons. destruct (String.eqb a b).
  - by apply sublist_cons.
  - by apply sublist_skip.
Qed.

(** X10.  [uniq] drops a line only when it equals the line before it:
    its output is a sub-sequence of the input without two equal adjacent
    lines, a second [uniq] changes nothing, and an input without equal
    adjacent lines passes unchanged, duplicates included; it is the [sort]
    before it that makes [merge_whitelist] remove all duplicates. *)
Theorem uniq_adjacent_only :
  (∀ l, sublist (Shell.uniq l) l) ∧
  (∀ l, Sorted (λ a b : string, a ≠ b) (Shell.uniq l)) ∧
  (∀ l, Shell.uniq (Shell.uniq l) = Shell.uniq l) ∧
  (∀ l, Sorted (λ a b : string, a ≠ b) l → Shell.uniq l = l).
Proof.
  split; [apply uniq_sublist|]. split; [apply uniq_no_adjacent|].
  split; [|apply uniq_fixed].
  intros l. apply uniq_fixed, uniq_no_adjacent.
Qed.

Lemma uniq_adjacent_only_witness :
  Sorted (λ a b : string, a ≠ b) ["b"; "a"; "b"]%string ∧
  Shell.uniq ["b"; "a"; "b"]%string = ["b"; "a"; "b"]%string.
Proof.
  assert (Hs : Sorted (λ a b : string, a ≠ b) ["b"; "a"; "b"]%string)
    by (repeat constructor; discriminate).
  split; [exact Hs|].
  exact (proj2 (proj2 (proj2 uniq_adjacent_only)) _ Hs).
Defined.

(* ===================================================================== *)
(** ** File names                                                         *)
(* ===================================================================== *)

Section ReplaceFacts.

Implicit Types (old new s t u : list ascii) (c : ascii).

Lemma startswith_app old t : Python.startswith (old ++ t) old = true.
Proof.
  induction old as [|a old IH]; [by destruct t|].
  simpl. by rewrite bool_decide_eq_true_2, IH.
Qed.

Lemma startswith_elem_of s old c :
  Python.startswith s old = true → c ∈ old → c ∈ s.
Proof.
  revert s. induction old as [|a old IH]; intros s Hs Hc.
  - by apply elem_of_nil in Hc.
  - destruct s as [|b s]; [done|]. simpl in Hs.
    apply andb_prop in Hs as [Hab Hs]. apply bool_decide_eq_true in Hab as ->.
    apply elem_of_cons in Hc as [->|Hc]; [by left|]. right. by apply IH.
Qed.

Lemma startswith_absent s old c :
  c ∈ old → c ∉ s → Python.startswith s old = false.
Proof.
  intros Hc Hs. destruct (Python.startswith s old) eqn:Hsw; [|done].
  destruct Hs. by apply (startswith_elem_of s old).
Qed.

Lemma replace_from_skip old new u t :
  Python.replace_from old new (length u) (u ++ t)
  = Python.replace_from old new 0 t.
Proof. induction u as [|c u IH]; [done|]. simpl. apply IH. Qed.

Lemma replace_from_head old new t :
  old ≠ [] →
  Python.replace_from old new 0 (old ++ t)
  = new ++ Python.replace_from old new 0 t.
Proof.
  destruct old as [|a old]; [done|intros _].
  change (Python.replace_from (a :: old) new 0 ((a :: old) ++ t))
    with (if Python.startswith ((a :: old) ++ t) (a :: old)
          then new ++ Python.replace_from (a :: old) new
                        (length (a :: old) - 1) (old ++ t)
          else a :: Python.replace_from (a :: old) new 0 (old ++ t)).
  rewrite startswith_app.
  replace (length (a :: old) - 1) with (length old) by (simpl; lia).
  by rewrite replace_from_skip.
Qed.

Lemma replace_from_pass old new s t :
  (∀ i, i < length s → Python.startswith (drop i (s ++ t)) old = false) →
  Python.replace_from old new 0 (s ++ t)
  = s ++ Python.replace_from old new 0 t.
Proof.
  induction s as [|c s IH]; intros Hno; [done|].
  change (Python.replace_from old new 0 ((c :: s) ++ t))
    with (if Python.startswith ((c :: s) ++ t) old
          then new ++ Python.replace_from old new (length old - 1) (s ++ t)
          else c :: Python.replace_from old new 0 (s ++ t)).
  pose proof (Hno 0) as H0. rewrite drop_0 in H0.
  rewrite H0 by (simpl; lia).
  rewrite IH; [done|].
  intros i Hi. apply (Hno (S i)). simpl. lia.
Qed.

(** No occurrence of [old] starts in [s] if the first character of
    [old] is not in [s]. *)
Lemma no_start_first_char c old s t :
  c ∉ s →
  ∀ i, i < length s → Python.startswith (drop i (s ++ t)) (c :: old) = false.
Proof.
  revert t. induction s as [|b s IH]; intros t Hc i Hi; [simpl in Hi; lia|].
  apply not_elem_of_cons in Hc as [Hcb Hc].
  destruct i as [|i].
  - simpl. by rewrite bool_decide_eq_false_2.
  - simpl. apply IH; [done|]. simpl in Hi. lia.
Qed.

(** No occurrence of [old] starts anywhere in [s] if some character of
    [old] is not in [s]. *)
Lemma no_start_absent_char c old s :
  c ∈ old → c ∉ s →
  ∀ i, i < length s → Python.startswith (drop i (s ++ [])) old = false.
Proof.
  intros Hold Hs i _. rewrite app_nil_r. apply (startswith_absent _ _ c Hold).
  intros Hin. apply Hs. by apply (subseteq_drop i s).
Qed.

(** [s.replace(old, new)] turns the suffix [old] into [new] if [old]
    starts nowhere before. *)
Lemma replace_chars_suffix old new s :
  old ≠ [] →
  (∀ i, i < length s → Python.startswith (drop i (s ++ old)) old = false) →
  Python.replace_chars old new (s ++ old) = s ++ new.
Proof.
  intros Hold Hno. destruct old as [|a old]; [done|].
  unfold Python.replace_chars. rewrite (replace_from_pass _ _ _ _ Hno).
  rewrite <- (app_nil_r (a :: old)) at 2.
  by rewrite replace_from_head, app_nil_r.
Qed.

(** [s.replace(old, "")] removes the prefix [old] if [old] does not
    occur in the rest. *)
Lemma replace_chars_prefix old s c :
  c ∈ old → c ∉ s → Python.replace_chars old [] (old ++ s) = s.
Proof.
  intros Hold Hs. destruct old as [|a old]; [by apply elem_of_nil in Hold|].
  unfold Python.replace_chars. rewrite replace_from_head by done. simpl.
  rewrite <- (app_nil_r s) at 1.
  rewrite (replace_from_pass _ _ _ _ (no_start_absent_char c _ _ Hold Hs)).
  by rewrite app_nil_r.
Qed.

Lemma replace_chars_empty s : Python.replace_chars [] [] s = s.
Proof. simpl. induction s as [|c s IH]; [done|]. simpl. by rewrite IH. Qed.

End ReplaceFacts.

Lemma list_ascii_of_string_app (a b : string) :
  String.list_ascii_of_string (String.append a b)
  = String.list_ascii_of_string a ++ String.list_ascii_of_string b.
Proof. induction a as [|c a IH]; [done|]. simpl. by rewrite IH. Qed.

Lemma string_of_list_ascii_app (l k : list ascii) :
  String.string_of_list_ascii (l ++ k)
  = String.append (String.string_of_list_ascii l) (String.string_of_list_ascii k).
Proof. induction l as [|c l IH]; [done|]. simpl. by rewrite IH. Qed.

Section NameFacts.

Local Open Scope string_scope.

Abbreviation la := String.list_ascii_of_string.

(** [(prefix ++ x ++ old).replace(old, new)], where [old] starts
    nowhere in the prefix and [x] lacks the first character of [old]. *)
Lemma replace_suffix (prefix x old new : string) (c : ascii) (old' : string) :
  old = String c old' →
  (∀ i, (i < length (la prefix))%nat →
        Python.startswith (drop i (la prefix ++ la x ++ la old)%list) (la old) = false) →
  c ∉ la x →
  Python.replace (prefix ++ x ++ old) old new = prefix ++ x ++ new.
Proof.
  intros Hold Hprefix Hx. unfold Python.replace.
  rewrite !list_ascii_of_string_app, (assoc app).
  rewrite replace_chars_suffix.
  - rewrite <- (assoc app), !string_of_list_ascii_app.
    by rewrite !String.string_of_list_ascii_of_string.
  - by rewrite Hold.
  - intros i Hi. rewrite length_app in Hi.
    destruct (decide (i < length (la prefix))%nat) as [Hlt|Hge].
    + rewrite <- (assoc app). by apply Hprefix.
    + rewrite <- (assoc app), drop_app_ge by lia.
      rewrite Hold. apply no_start_first_char; [done|lia].
Qed.

(** [(prefix ++ x ++ suffix).replace(prefix, "").replace(suffix, "")]
    is [x], if [x] and [suffix] lack a character of [prefix] and [x]
    lacks the first character of [suffix]. *)
Lemma replace_strip (prefix x suffix : string) (p c : ascii) (suffix' : string) :
  suffix = String c suffix' →
  p ∈ la prefix → p ∉ la x → p ∉ la suffix → c ∉ la x →
  Python.replace (Python.replace (prefix ++ x ++ suffix) prefix "") suffix "" = x.
Proof.
  intros Hsuffix Hp Hpx Hps Hcx.
  assert (Hfirst : Python.replace (prefix ++ x ++ suffix) prefix "" = x ++ suffix).
  { unfold Python.replace. rewrite !list_ascii_of_string_app.
    rewrite (replace_chars_prefix _ _ p Hp).
    - by rewrite string_of_list_ascii_app, !String.string_of_list_ascii_of_string.
    - rewrite elem_of_app. tauto. }
  rewrite Hfirst.
  change (x ++ suffix) with ("" ++ x ++ suffix).
  rewrite (replace_suffix "" x suffix "" c suffix' Hsuffix);
    [|intros i Hi; simpl in Hi; lia|done].
  change ("" ++ x ++ "") with (x ++ "").
  clear. induction x as [|a x IH]; [done|].
  change (String a x ++ "") with (String a (x ++ "")). by rewrite IH.
Qed.

End NameFacts.

Section PipelineNames.

Local Open Scope string_scope.

Abbreviation chars_of := String.list_ascii_of_string.

(** Settles that [old] starts nowhere in a given prefix, position by
    position. *)
Ltac no_start_in_prefix :=
  let i := fresh "i" in
  let Hi := fresh "Hi" in
  intros i Hi;
  do 24 (try (destruct i as [|i]; [first [reflexivity | simpl in Hi; lia]|]));
  simpl in Hi; lia.

Lemma string_app_empty (x : string) : x ++ "" = x.
Proof.
  induction x as [|a x IH]; [done|].
  change (String a x ++ "") with (String a (x ++ "")). by rewrite IH.
Qed.

(** X11.  For chunks whose names contain neither a dot nor a slash (the
    suffixes that [split] gives are letters), the whitelist file that
    [identify_bcumi] writes for a chunk is the file that [merge_whitelist]
    reads for it, [polyA_umi.dir/<chunk>.whitelist.txt]. *)
Theorem whitelist_names_agree (chunks : list string) :
  Forall (λ chunk, ("."%char ∉ chars_of chunk) ∧ ("/"%char ∉ chars_of chunk)) chunks →
  Names.merge_whitelist_files (map Names.bcumi_outfile chunks)
  = map (λ chunk, Names.identify_bcumi_whitelist (Names.bcumi_outfile chunk)) chunks
  ∧ map (λ chunk, Names.identify_bcumi_whitelist (Names.bcumi_outfile chunk)) chunks
    = map (λ chunk, "polyA_umi.dir/" ++ chunk ++ ".whitelist.txt") chunks.
Proof.
  intros Hchunks. unfold Names.merge_whitelist_files. rewrite map_map.
  assert (Hname : Forall (λ chunk,
            Names.identify_bcumi_whitelist (Names.bcumi_outfile chunk)
            = "polyA_umi.dir/" ++ chunk ++ ".whitelist.txt") chunks).
  { eapply Forall_impl; [exact Hchunks|]. intros chunk [Hdot Hslash].
    unfold Names.identify_bcumi_whitelist, Names.identify_bcumi_name,
      Names.bcumi_outfile.
    rewrite (replace_strip "polyA_umi.dir/" chunk ".fastq.gz" "/" "." "fastq.gz");
      [done|done|by_computation|done|by_computation|done]. }
  assert (Hfile : Forall (λ chunk,
            Python.replace (Names.bcumi_outfile chunk) ".fastq.gz" ".whitelist.txt"
            = "polyA_umi.dir/" ++ chunk ++ ".whitelist.txt") chunks).
  { eapply Forall_impl; [exact Hchunks|]. intros chunk [Hdot Hslash].
    unfold Names.bcumi_outfile.
    apply (replace_suffix "polyA_umi.dir/" chunk ".fastq.gz" ".whitelist.txt"
             "." "fastq.gz"); [done|no_start_in_prefix|done]. }
  split.
  - rewrite (map_ext_Forall _ _ Hfile). symmetry. by apply map_ext_Forall.
  - by apply map_ext_Forall.
Qed.

Lemma whitelist_names_agree_witness :
  Forall (λ chunk, ("."%char ∉ chars_of chunk) ∧ ("/"%char ∉ chars_of chunk))
    ["aa"; "ab"] ∧
  Names.merge_whitelist_files (map Names.bcumi_outfile ["aa"; "ab"])
  = map (λ chunk, Names.identify_bcumi_whitelist (Names.bcumi_outfile chunk))
      ["aa"; "ab"].
Proof.
  assert (H : Forall (λ chunk, ("."%char ∉ chars_of chunk) ∧ ("/"%char ∉ chars_of chunk))
                ["aa"; "ab"]).
  { repeat constructor; by_computation. }
  split; [exact H|]. exact (proj1 (whitelist_names_agree _ H)).
Defined.

(** X12.  For a sample whose name contains no dot, [correct_umis] pairs
    the first read file [data.dir/<sample>.fastq.1.gz] with
    [data.dir/<sample>.fastq.2.gz]. *)
Theorem correct_umis_second_read (sample : string) :
  "."%char ∉ chars_of sample →
  Names.correct_umis_read2 ("data.dir/" ++ sample ++ ".fastq.1.gz")
  = "data.dir/" ++ sample ++ ".fastq.2.gz".
Proof.
  intros Hdot. unfold Names.correct_umis_read2.
  apply (replace_suffix "data.dir/" sample ".fastq.1.gz" ".fastq.2.gz"
           "." "fastq.1.gz"); [done|no_start_in_prefix|done].
Qed.

Lemma correct_umis_second_read_witness :
  ("."%char ∉ chars_of "s1") ∧
  Names.correct_umis_read2 ("data.dir/" ++ "s1" ++ ".fastq.1.gz")
  = "data.dir/" ++ "s1" ++ ".fastq.2.gz".
Proof.
  assert (H : "."%char ∉ chars_of "s1") by by_computation.
  split; [exact H|]. exact (correct_umis_second_read "s1" H).
Defined.

(** X13.  In the barcode pipeline, for a name without dot and slash,
    [split_fastq] computes [<name>] from [data.dir/<name>.fastq.gz], and
    [seperate_by_barcode] computes [<name>] from
    [seperate_samples.dir/<name>.fastq.gz]. *)
Theorem barcode_names (name : string) :
  "."%char ∉ chars_of name → "/"%char ∉ chars_of name →
  Names.barcode_split_name ("data.dir/" ++ name ++ ".fastq.gz") = name ∧
  Names.seperate_by_barcode_name ("seperate_samples.dir/" ++ name ++ ".fastq.gz")
  = name.
Proof.
  intros Hdot Hslash. split.
  - apply (replace_strip "data.dir/" name ".fastq.gz" "/" "." "fastq.gz");
      [done|by_computation|done|by_computation|done].
  - apply (replace_strip "seperate_samples.dir/" name ".fastq.gz" "/" "." "fastq.gz");
      [done|by_computation|done|by_computation|done].
Qed.

Lemma barcode_names_witness :
("."%char ∉ chars_of "run7") ∧ ("/"%char ∉ chars_of "run7") ∧
  Names.barcode_split_name ("data.dir/" ++ "run7" ++ ".fastq.gz") = "run7".
Proof.
  assert (Hdot : "."%char ∉ chars_of "run7") by by_computation.
  assert (Hslash : "/"%char ∉ chars_of "run7") by by_computation.
  split; [exact Hdot|]. split; [exact Hslash|].
  exact (proj1 (barcode_names "run7" Hdot Hslash)).
Defined.

(** X14.  [merge_featurecounts_data] labels the columns with the input
    file names unchanged: [x.replace("", "")] is [x].  [merge_genes] then
    relabels them with the file names without [_counts_genes.tsv.gz], for
    samples whose names contain no underscore. *)
Theorem featurecounts_column_names :
  (∀ infiles, Names.merge_featurecounts_names infiles = infiles) ∧
  (∀ samples,
     Forall (λ sample, "_"%char ∉ chars_of sample) samples →
     Names.merge_genes_names
       (map (λ sample, "featurecounts.dir/" ++ sample ++ "_counts_genes.tsv.gz")
          samples)
     = map (λ sample, "featurecounts.dir/" ++ sample) samples).
Proof.
  split.
  - intros infiles. unfold Names.merge_featurecounts_names.
    rewrite <- (map_id infiles) at 2. apply map_ext. intros x.
    unfold Python.replace.
    change (chars_of "") with (@nil ascii).
    by rewrite replace_chars_empty, String.string_of_list_ascii_of_string.
  - intros samples Hsamples. unfold Names.merge_genes_names.
    rewrite map_map. apply map_ext_Forall.
    eapply Forall_impl; [exact Hsamples|]. intros sample Hsample. simpl.
    rewrite (replace_suffix "featurecounts.dir/" sample "_counts_genes.tsv.gz" ""
               "_" "counts_genes.tsv.gz"); [|done|no_start_in_prefix|done].
    by rewrite string_app_empty.
Qed.

Lemma featurecounts_column_names_witness :
  Forall (λ sample, "_"%char ∉ chars_of sample) ["s1"; "s2"] ∧
  Names.merge_genes_names
    (map (λ sample, "featurecounts.dir/" ++ sample ++ "_counts_genes.tsv.gz")
       ["s1"; "s2"])
  = map (λ sample, "featurecounts.dir/" ++ sample) ["s1"; "s2"].
Proof.
  assert (H : Forall (λ sample, "_"%char ∉ chars_of sample) ["s1"; "s2"]).
  { repeat constructor; by_computation. }
  split; [exact H|]. exact (proj2 featurecounts_column_names _ H).
Defined.

End PipelineNames.

(* ===================================================================== *)
(** ** The count table of the Illumina pipeline                           *)
(* ===================================================================== *)

Lemma featurecounts_names_unchanged (infiles : list string) :
  Names.merge_featurecounts_names infiles = infiles.
Proof.
  unfold Names.merge_featurecounts_names.
  rewrite <- (map_id infiles) at 2. apply map_ext. intros x.
  unfold Python.replace.
  change (String.list_ascii_of_string "") with (@nil ascii).
  by rewrite replace_chars_empty, String.string_of_list_ascii_of_string.
Qed.

Section FeaturecountsFacts.

Variable read_table : string → gmap string Z.

Implicit Types (infiles : list string) (g : string) (df : Featurecounts.frame).

Abbreviation merge_files :=
  (foldl (λ final_df infile,
            Featurecounts.merge_outer final_df
              (Featurecounts.count_column (read_table infile)))
     Featurecounts.empty_frame).

(** The counts of gene [g] in the files, file by file. *)
Abbreviation counted g := (map (λ f, read_table f !! g)).

Lemma length_suffixed (left right : list string) :
  length (Featurecounts.suffixed left right) = length left + length right.
Proof. unfold Featurecounts.suffixed. by rewrite length_app, length_map. Qed.

Lemma counted_absent infiles g :
  ¬ Exists (λ f, is_Some (read_table f !! g)) infiles →
  counted g infiles = replicate (length infiles) None.
Proof.
  induction infiles as [|f infiles IH]; [done|].
  intros Hno. simpl. rewrite IH.
  - f_equal. destruct (read_table f !! g) eqn:Hf; [|done].
    exfalso. apply Hno. left. by rewrite Hf.
  - intros Hex. apply Hno. by right.
Qed.

(** The frame that the loop has built after the files [infiles]: a
    column for every file, a row for every gene that a file counts, and
    in the row the counts of the gene, file by file. *)
Lemma merge_files_spec infiles :
  length (Featurecounts.columns (merge_files infiles)) = length infiles ∧
  ∀ g,
    Featurecounts.rows (merge_files infiles) !! g
    = if decide (Exists (λ f, is_Some (read_table f !! g)) infiles)
      then Some (counted g infiles) else None.
Proof.
  induction infiles as [|f infiles [IHlen IHrows]] using rev_ind.
  - split; [done|]. intros g. change (merge_files []) with Featurecounts.empty_frame.
    unfold Featurecounts.empty_frame, Featurecounts.rows. rewrite lookup_empty.
    rewrite decide_False; [done|]. by intros ?%Exists_nil.
  - rewrite foldl_app. simpl. split.
    { rewrite length_suffixed, IHlen, length_app. simpl. lia. }
    intros g. rewrite lookup_merge, IHrows, lookup_fmap, IHlen.
    rewrite map_app. simpl.
    destruct (decide (Exists _ infiles)) as [Hex|Hno];
      destruct (read_table f !! g) as [v|] eqn:Hf; simpl.
    + rewrite decide_True; [done|]. apply Exists_app. by left.
    + rewrite decide_True; [done|]. apply Exists_app. by left.
    + rewrite decide_True.
      * by rewrite counted_absent.
      * apply Exists_app. right. left. by rewrite Hf.
    + rewrite decide_False; [done|].
      intros [?|Hf']%Exists_app; [done|].
      apply Exists_cons in Hf' as [Hf'|?%Exists_nil]; [|done].
      rewrite Hf in Hf'. by destruct Hf'.
Qed.

Lemma merge_featurecounts_data_spec infiles :
  ∃ df,
    Featurecounts.merge_featurecounts_data read_table infiles = Some df ∧
    Featurecounts.columns df = infiles ∧
    ∀ g,
      Featurecounts.rows df !! g
      = if decide (Exists (λ f, is_Some (read_table f !! g)) infiles)
        then Some (counted g infiles) else None.
Proof.
  destruct (merge_files_spec infiles) as [Hlen Hrows].
  unfold Featurecounts.merge_featurecounts_data, Featurecounts.set_columns.
  rewrite featurecounts_names_unchanged, decide_True by done.
  eexists. split; [done|]. by split.
Qed.

Lemma zip_counted infiles g :
  zip infiles (counted g infiles) = map (λ f, (f, read_table f !! g)) infiles.
Proof. induction infiles as [|f infiles IH]; [done|]. simpl. by rewrite IH. Qed.

End FeaturecountsFacts.

Section FeaturecountsOrder.

Local Open Scope string_scope.
Local Open Scope Z_scope.




End FeaturecountsOrder.

Section SequenceFiles.

Local Open Scope string_scope.

Lemma string_length_app (a b : string) :
  String.length (a ++ b) = (String.length a + String.length b)%nat.
Proof.
  induction a as [|c a IH]; [done|].
  change (String c a ++ b) with (String c (a ++ b)). simpl. by rewrite IH.
Qed.

Lemma length_chars (s : string) :
  length (String.list_ascii_of_string s) = String.length s.
Proof. induction s as [|c s IH]; [done|]. simpl. by rewrite IH. Qed.

(** A relative [b] is appended to [a], with one slash at most. *)
Lemma path_join_length (a b : string) :
  Python.startswith (String.list_ascii_of_string b) ["/"%char] = false →
  String.length (Python.path_join a b)
  = (String.length a + String.length b
     + (if bool_decide (a = EmptyString)
           || bool_decide (last (String.list_ascii_of_string a) = Some "/"%char)
        then 0 else 1))%nat.
Proof.
  intros Hb. unfold Python.path_join. rewrite Hb.
  destruct (_ || _); rewrite !string_length_app; simpl; lia.
Qed.

Lemma path_join_char_length (a : string) (c : ascii) :
  (String.length (Python.path_join a (String c ""))
   ≤ String.length a + 1
     + (if bool_decide (a = EmptyString)
           || bool_decide (last (String.list_ascii_of_string a) = Some "/"%char)
        then 0 else 1))%nat.
Proof.
  destruct (Python.startswith (String.list_ascii_of_string (String c "")) ["/"%char])
    eqn:Hc.
  - unfold Python.path_join. rewrite Hc. simpl. lia.
  - rewrite path_join_length by done. simpl. lia.
Qed.

(** X15.  [SEQUENCEFILES] is built by a loop over the characters of the
    suffix pattern: it has one entry per character, each entry being the
    data directory joined with that single character; and for a relative
    pattern of two characters or more, the pattern joined to the data
    directory is not among the entries. *)
Theorem sequence_files_per_character (datadir suffixes : string) :
  length (Names.sequence_files datadir suffixes) = String.length suffixes ∧
  (∀ i c, String.list_ascii_of_string suffixes !! i = Some c →
          Names.sequence_files datadir suffixes !! i
          = Some (Python.path_join datadir (String c ""))) ∧
  ((2 ≤ String.length suffixes)%nat →
   Python.startswith (String.list_ascii_of_string suffixes) ["/"%char] = false →
   Python.path_join datadir suffixes ∉ Names.sequence_files datadir suffixes).
Proof.
  unfold Names.sequence_files, Python.chars. split; [|split].
  - by rewrite !length_map, length_chars.
  - intros i c Hc. rewrite map_map.
    change (map ?f ?l) with (f <$> l). by rewrite list_lookup_fmap, Hc.
  - intros Hlen Hrel Hin. rewrite map_map in Hin.
    apply list_elem_of_fmap in Hin as (c & Heq & _).
    pose proof (path_join_char_length datadir c) as Hshort.
    rewrite <- Heq, path_join_length in Hshort by done. lia.
Qed.

Lemma sequence_files_per_character_witness :
  (2 ≤ String.length "*.fastq.1.gz")%nat ∧
  Python.startswith (String.list_ascii_of_string "*.fastq.1.gz") ["/"%char] = false ∧
  (Python.path_join "data.dir" "*.fastq.1.gz"
   ∉ Names.sequence_files "data.dir" "*.fastq.1.gz") ∧
  Names.sequence_files "data.dir" "*.fastq.1.gz" !! 0 = Some "data.dir/*".
Proof.
  assert (Hlen : (2 ≤ String.length "*.fastq.1.gz")%nat) by (simpl; lia).
  assert (Hrel : Python.startswith (String.list_ascii_of_string "*.fastq.1.gz")
                   ["/"%char] = false) by reflexivity.
  split; [exact Hlen|]. split; [exact Hrel|]. split.
  - exact (proj2 (proj2 (sequence_files_per_character "data.dir" "*.fastq.1.gz"))
             Hlen Hrel).
  - reflexivity.
Defined.

End SequenceFiles.

(* ===================================================================== *)
(** ** The simulation dispatcher                                          *)
(* ===================================================================== *)

Lemma errors_body_lockstep (e : float) (pcr_errs seq_errs : list float) :
  ∃ added,
    General.errors_body e pcr_errs seq_errs
    = (PrimFloat.mul 10 e, pcr_errs ++ added, seq_errs ++ added).
Proof.
  unfold General.errors_body.
  destruct (PrimFloat.ltb _ _).
  - eexists. by rewrite <- !(assoc app).
  - by eexists.
Qed.

(** Once the loop has returned, more fuel does not change what it
    returns. *)
Lemma errors_while_fuel_mono (fuel fuel' : nat) (e : float)
    (pcr_errs seq_errs : list float) (r : list float * list float) :
  fuel ≤ fuel' →
  General.errors_while fuel e pcr_errs seq_errs = Some r →
  General.errors_while fuel' e pcr_errs seq_errs = Some r.
Proof.
  revert fuel' e pcr_errs seq_errs.
  induction fuel as [|fuel IH]; intros fuel' e p s Hle.
  - simpl. destruct fuel'; simpl; by destruct (PrimFloat.ltb _ _).
  - destruct fuel' as [|fuel']; [lia|]. simpl.
    destruct (PrimFloat.ltb _ _); [|done].
    destruct (General.errors_body e p s) as [[e' p'] s'].
    apply IH. lia.
Qed.

(** X16.  [errors()] returns: its loop ends after five rounds, so with
    fuel for five rounds or more the result is the same one, and with
    fuel for four it is not reached.  The two lists returned are equal,
    because every round of the loop appends the same values, in the same
    order, to [pcr_errs] and to [seq_errs], whatever the error rate and
    the lists it starts from; so any result of the loop is the two given
    lists, each followed by the same values. *)
Theorem errors_lockstep :
  (∀ fuel : nat, 5 ≤ fuel → General.errors_fuel fuel = General.errors_fuel 5) ∧
  (∃ l : list float, General.errors_fuel 5 = Some (l, l) ∧ length l = 19) ∧
  General.errors_fuel 4 = None ∧
  (∀ (e : float) (pcr_errs seq_errs : list float),
     ∃ added,
       General.errors_body e pcr_errs seq_errs
       = (PrimFloat.mul 10 e, pcr_errs ++ added, seq_errs ++ added)) ∧
  (∀ (fuel : nat) (e : float) (pcr_errs seq_errs pcr_errs' seq_errs' : list float),
     General.errors_while fuel e pcr_errs seq_errs = Some (pcr_errs', seq_errs') →
     ∃ added, pcr_errs' = pcr_errs ++ added ∧ seq_errs' = seq_errs ++ added).
Proof.
  split.
  { intros fuel Hfuel. unfold General.errors_fuel.
    destruct (General.errors_while 5 1e-5 [] []) as [r|] eqn:Hfive;
      [|by vm_compute in Hfive].
    by rewrite (errors_while_fuel_mono 5 fuel _ _ _ r Hfuel Hfive). }
  split; [eexists; split; by vm_compute|].
  split; [by vm_compute|].
  split; [apply errors_body_lockstep|].
  induction fuel as [|fuel IH]; intros e p s p' s'; simpl.
  - destruct (PrimFloat.ltb _ _); [done|].
    intros [= <- <-]. exists []. by rewrite !app_nil_r.
  - destruct (PrimFloat.ltb _ _).
    + destruct (errors_body_lockstep e p s) as (added & ->).
      intros (more & -> & ->)%IH. exists (added ++ more).
      by rewrite !(assoc app).
    + intros [= <- <-]. exists []. by rewrite !app_nil_r.
Qed.

Lemma errors_lockstep_witness :
  5 ≤ 8 ∧ General.errors = General.errors_fuel 5.
Proof.
  assert (Hfuel : 5 ≤ 8) by lia.
  split; [exact Hfuel|].
  exact (proj1 errors_lockstep 8 Hfuel).
Defined.

Section WorkingDirs.

Local Open Scope string_scope.

Lemma string_app_inv_head (a x y : string) : a ++ x = a ++ y → x = y.
Proof.
  induction a as [|c a IH]; [done|].
  change (String c a ++ ?z) with (String c (a ++ z)). intros [= H]. by apply IH.
Qed.

Lemma string_app_inv_tail (x y b : string) : x ++ b = y ++ b → x = y.
Proof.
  intros H. apply (f_equal String.list_ascii_of_string) in H.
  rewrite !list_ascii_of_string_app in H. apply app_inv_tail in H.
  apply (f_equal String.string_of_list_ascii) in H.
  by rewrite !String.string_of_list_ascii_of_string in H.
Qed.

(** X17.  Whatever [to] does, two different permutations of a sweep get
    different working directories: no permutation writes into the
    directory of another. *)
Theorem working_dir_injective (to : string → string) (kind : string) (pn pn' : nat) :
  Dispatch.working_dir to kind pn = Dispatch.working_dir to kind pn' → pn = pn'.
Proof.
  unfold Dispatch.working_dir. intros H.
  apply string_app_inv_head, string_app_inv_tail in H.
  by apply (inj pretty).
Qed.

Lemma working_dir_injective_witness :
  Dispatch.working_dir id "pcr_num" 3 = Dispatch.working_dir id "pcr_num" (1 + 2) ∧
  3 = 1 + 2.
Proof.
  assert (H : Dispatch.working_dir id "pcr_num" 3
              = Dispatch.working_dir id "pcr_num" (1 + 2)) by reflexivity.
  split; [exact H|]. exact (working_dir_injective id "pcr_num" 3 (1 + 2) H).
Defined.

End WorkingDirs.
